(** * Background remover: colour sampling, Sobel edges, alpha mask, feathering

    A shallow embedding of the "smart" pipeline of [BackgroundRemover]
    ([colorDistance], [getBackgroundColors], [detectEdges] and the body of
    [removeBackground]) together with the properties its specification
    states about it, and of the one-pass "simple" pipeline of the other
    [BackgroundRemover] component (module [Simple]).

    Numbers.  Every JavaScript number the pipeline handles is an integer
    (bytes of a [Uint8ClampedArray], indices, slider values with integer
    steps) except for three places, all of which are kept exact here:
    - [Math.sqrt(n) < t], [Math.sqrt(n) > t] and [Math.sqrt(n) <= t] with an
      integer radicand [n] and an integer bound [t]: IEEE-754 square root is
      correctly rounded and monotone and integers of this size are
      represented exactly, so the comparison is the comparison of [n] with
      [t * t]; the section on binary64 evaluates the floating-point
      operations themselves to confirm it where rounding could matter, and
      [Binary64.colorDistance] is the binary64 value of the distance itself;
    - [Math.floor(255 * 0.3)] and [Math.floor(255 * (1 - distance / radius))]:
      these are computed with Rocq's primitive binary64 floats, operation by
      operation as the source does. *)

From Stdlib Require Import ZArith Lia Bool Reals Lra.
From Stdlib Require Import PrimFloat FloatOps SpecFloat Uint63.
From stdpp Require Import base numbers option list sorting.

Local Open Scope Z_scope.

(** ** Arrays indexed by JavaScript numbers *)

(** [arr[i]]: [None] stands for [undefined] (index negative or past the end). *)
Definition nthZ {A} (l : list A) (i : Z) : option A :=
  if bool_decide (0 ≤ i) then l !! Z.to_nat i else None.

(** [arr[i] = v] for an index inside the array; the pipeline never writes
    outside one (see [idx_in_range] and [elem_of_featherWrites]), and a typed
    array ignores such a write. *)
Definition updZ {A} (l : list A) (i : Z) (v : A) : list A :=
  if bool_decide (0 ≤ i) then <[Z.to_nat i := v]> l else l.

(** A byte read from [ImageData.data]. An [ImageData] always carries
    [4 * width * height] bytes, so the reads below are in range ([wf_image]);
    the default is never observed on such an image. *)
Definition byteAt (d : list Z) (i : Z) : Z := default 0 (nthZ d i).

(** ** Floating point: the two [Math.floor] calls *)

Definition float_of_Z (z : Z) : float :=
  if z <? 0 then PrimFloat.opp (PrimFloat.of_uint63 (Uint63.of_Z (- z)))
  else PrimFloat.of_uint63 (Uint63.of_Z z).

(** [Math.floor] on a finite binary64 value [(-1)^s * m * 2^e]. The pipeline
    only floors finite values (the radius is positive where it divides); an
    infinity or NaN is mapped to 0 here and never arises. *)
Definition floorF (f : float) : Z :=
  match Prim2SF f with
  | S754_finite s m e =>
      let n := if 0 <=? e then Z.shiftl (Z.pos m) e else Z.shiftr (Z.pos m) (- e) in
      let exact := if 0 <=? e then true else Z.shiftl n (- e) =? Z.pos m in
      if s then (if exact then - n else - n - 1) else n
  | _ => 0
  end.

(** ** Data model *)

Record ImageData := mkImageData { width : Z; height : Z; data : list Z }.

Record Color := mkColor { r : Z; g : Z; b : Z }.

#[global] Instance Color_eq_dec : EqDecision Color.
Proof. solve_decision. Defined.

Record ColorSample := mkSample { rgb : Color; count : Z }.

Record ProcessingSettings := mkSettings {
  colorTolerance : Z;
  edgeDetection : Z;
  feathering : Z
}.

(** What the browser guarantees of an [ImageData]. *)
Definition wf_image (img : ImageData) : Prop :=
  0 < width img ∧ 0 < height img ∧
  length (data img) = Z.to_nat (4 * (width img * height img)) ∧
  Forall (λ v, 0 ≤ v ≤ 255) (data img).

(** The slider ranges of the three settings. *)
Definition in_range (s : ProcessingSettings) : Prop :=
  10 ≤ colorTolerance s ≤ 100 ∧ 1 ≤ edgeDetection s ≤ 10 ∧ 0 ≤ feathering s ≤ 5.

(** Row-major pixel index, [y * width + x]. *)
Definition idx (w x y : Z) : Z := y * w + x.

Definition inside (w h x y : Z) : Prop := 0 ≤ x < w ∧ 0 ≤ y < h.

Definition pixelAt (img : ImageData) (x y : Z) : Color :=
  let index := idx (width img) x y * 4 in
  {| r := byteAt (data img) index;
     g := byteAt (data img) (index + 1);
     b := byteAt (data img) (index + 2) |}.

(** ** colorDistance *)

(** The radicand of [colorDistance]. *)
Definition colorDistanceSq (r1 g1 b1 r2 g2 b2 : Z) : Z :=
  (r1 - r2) ^ 2 + (g1 - g2) ^ 2 + (b1 - b2) ^ 2.

(** [Math.sqrt(n) < t], [Math.sqrt(n) > t], [Math.sqrt(n) <= t] for an
    integer [n >= 0] and an integer [t]. *)
Definition sqrt_lt (n t : Z) : bool := (0 <? t) && (n <? t * t).
Definition sqrt_gt (n t : Z) : bool := (t <? 0) || (t * t <? n).
Definition sqrt_le (n t : Z) : bool := (0 <=? t) && (n <=? t * t).

(** [colorDistance(r1, g1, b1, r2, g2, b2) < t]. *)
Definition colorDistance_lt (c1 c2 : Color) (t : Z) : bool :=
  sqrt_lt (colorDistanceSq (r c1) (g c1) (b c1) (r c2) (g c2) (b c2)) t.

(** The number [colorDistance] returns, a binary64 value. Between bytes the
    differences, their squares and the sum are integers below [2^18], which
    binary64 computes exactly; [Math.sqrt] is the one operation that rounds. *)
Module Binary64.

Definition colorDistance (r1 g1 b1 r2 g2 b2 : Z) : float :=
  PrimFloat.sqrt (float_of_Z (colorDistanceSq r1 g1 b1 r2 g2 b2)).

End Binary64.

(** ** getBackgroundColors *)

(** [for (let v = 0; v < n; v += 5)]: the values [v] takes. *)
Definition stride5 (n : Z) : list Z := (λ k, 5 * k) <$> seqZ 0 ((n + 4) `div` 5).

Definition samplePixels (w h : Z) : list (Z * Z) :=
  (stride5 w ≫= λ x, [(x, 0); (x, h - 1)]) ++
  (stride5 h ≫= λ y, [(0, y); (w - 1, y)]).

(** The inner [for (let color of colors)] with its [break]: the first sample
    within distance 30 gets its count incremented; [None] is [!found]. *)
Fixpoint findSimilar (px : Color) (colors : list ColorSample) : option (list ColorSample) :=
  match colors with
  | [] => None
  | color :: rest =>
      if colorDistance_lt px (rgb color) 30
      then Some ({| rgb := rgb color; count := count color + 1 |} :: rest)
      else (color ::.) <$> findSimilar px rest
  end.

Definition addSample (colors : list ColorSample) (px : Color) : list ColorSample :=
  match findSimilar px colors with
  | Some colors' => colors'
  | None => colors ++ [{| rgb := px; count := 1 |}]
  end.

(** The [colors] array after the [forEach] over the sampled pixels. *)
Definition sampleColors (img : ImageData) : list ColorSample :=
  foldl addSample []
    ((λ p, pixelAt img p.1 p.2) <$> samplePixels (width img) (height img)).

(** [colors.sort((a, b) => b.count - a.count)]: [Array.prototype.sort] is a
    stable sort, here by insertion; an element goes in front of the first
    one whose count is not greater than its own. *)
Fixpoint insertByCount (s : ColorSample) (l : list ColorSample) : list ColorSample :=
  match l with
  | [] => [s]
  | s' :: l' => if count s <? count s' then s' :: insertByCount s l' else s :: s' :: l'
  end.

Definition sortByCount (l : list ColorSample) : list ColorSample :=
  foldr insertByCount [] l.

Definition getBackgroundColors (img : ImageData) : list Color :=
  rgb <$> take 3 (sortByCount (sampleColors img)).

(** ** detectEdges *)

Definition sobel (img : ImageData) (x y : Z) : Z * Z :=
  let w := width img in
  let d := data img in
  let gx :=
    -1 * byteAt d (((y-1) * w + (x-1)) * 4) + 1 * byteAt d (((y-1) * w + (x+1)) * 4) +
    -2 * byteAt d ((y * w + (x-1)) * 4) + 2 * byteAt d ((y * w + (x+1)) * 4) +
    -1 * byteAt d (((y+1) * w + (x-1)) * 4) + 1 * byteAt d (((y+1) * w + (x+1)) * 4) in
  let gy :=
    -1 * byteAt d (((y-1) * w + (x-1)) * 4) + -2 * byteAt d (((y-1) * w + x) * 4) +
    -1 * byteAt d (((y-1) * w + (x+1)) * 4) +
    1 * byteAt d (((y+1) * w + (x-1)) * 4) + 2 * byteAt d (((y+1) * w + x) * 4) +
    1 * byteAt d (((y+1) * w + (x+1)) * 4) in
  (gx, gy).

(** [Math.sqrt(gx * gx + gy * gy) > threshold] at pixel [(x, y)]. *)
Definition isEdge (img : ImageData) (threshold x y : Z) : bool :=
  let '(gx, gy) := sobel img x y in sqrt_gt (gx * gx + gy * gy) threshold.

Definition detectEdges (img : ImageData) (threshold : Z) : list bool :=
  let w := width img in
  let h := height img in
  foldl (λ edges y,
    foldl (λ edges x, updZ edges (idx w x y) (isEdge img threshold x y))
      edges (seqZ 1 (w - 2)))
    (replicate (Z.to_nat (w * h)) false) (seqZ 1 (h - 2)).

(** ** removeBackground: the alpha mask *)

(** [Math.floor(255 * 0.3)]; the literal is the binary64 value nearest to 0.3. *)
Definition translucent : Z :=
  floorF (PrimFloat.mul (float_of_Z 255) 0x1.3333333333333p-2%float).

(** The inner [for (let bgColor of backgroundColors)] with its [break]. *)
Definition isBackground (px : Color) (backgroundColors : list Color) (tolerance : Z) : bool :=
  existsb (λ bgColor, colorDistance_lt px bgColor tolerance) backgroundColors.

(** One iteration of step one on [alphaChannel]; [!edges[idx]] is true for
    a missing entry. *)
Definition classifyStep (img : ImageData) (backgroundColors : list Color) (edges : list bool)
    (tolerance : Z) (y : Z) (alphaChannel : list Z) (x : Z) : list Z :=
  let i := idx (width img) x y in
  let bg := isBackground (pixelAt img x y) backgroundColors tolerance in
  if bg && negb (default false (nthZ edges i)) then updZ alphaChannel i 0
  else if bg then updZ alphaChannel i translucent
  else alphaChannel.

Definition classify (img : ImageData) (backgroundColors : list Color) (edges : list bool)
    (tolerance : Z) : list Z :=
  let w := width img in
  let h := height img in
  foldl (λ alphaChannel y,
    foldl (classifyStep img backgroundColors edges tolerance y) alphaChannel (seqZ 0 w))
    (replicate (Z.to_nat (w * h)) 255) (seqZ 0 h).

(** ** removeBackground: feathering *)

(** [Math.floor(255 * (1 - Math.sqrt(d2) / featherRadius))] in binary64,
    where [d2 = dx * dx + dy * dy]. *)
Definition fadeAlpha (featherRadius d2 : Z) : Z :=
  let distance := PrimFloat.sqrt (float_of_Z d2) in
  let fadeAmount :=
    PrimFloat.sub (float_of_Z 1) (PrimFloat.div distance (float_of_Z featherRadius)) in
  floorF (PrimFloat.mul (float_of_Z 255) fadeAmount).

(** The body of the two innermost loops, for the source pixel [(x, y)]. The
    guard reads [alphaChannel], the write goes to [newAlpha]; both have the
    same length, so [newAlpha[neighborIdx]] is defined when the guard holds. *)
Definition featherStep (w featherRadius : Z) (alphaChannel : list Z) (x y dy : Z)
    (newAlpha : list Z) (dx : Z) : list Z :=
  let neighborIdx := (y + dy) * w + (x + dx) in
  let d2 := dx * dx + dy * dy in
  match nthZ alphaChannel neighborIdx, nthZ newAlpha neighborIdx with
  | Some a, Some cur =>
      if sqrt_le d2 featherRadius && (0 <? a)
      then updZ newAlpha neighborIdx (Z.min cur (fadeAlpha featherRadius d2))
      else newAlpha
  | _, _ => newAlpha
  end.

(** The four nested loops of step two, started on a copy of [alphaChannel]. *)
Definition featherLoops (w h featherRadius : Z) (alphaChannel : list Z) : list Z :=
  foldl (λ newAlpha y,
    foldl (λ newAlpha x,
      if bool_decide (nthZ alphaChannel (idx w x y) = Some 0) then
        foldl (λ newAlpha dy,
          foldl (featherStep w featherRadius alphaChannel x y dy) newAlpha
            (seqZ (- featherRadius) (2 * featherRadius + 1)))
          newAlpha (seqZ (- featherRadius) (2 * featherRadius + 1))
      else newAlpha)
      newAlpha (seqZ featherRadius (w - 2 * featherRadius)))
    alphaChannel (seqZ featherRadius (h - 2 * featherRadius)).

(** [if (settings.feathering > 0) { ... }]. *)
Definition feather (w h featherRadius : Z) (alphaChannel : list Z) : list Z :=
  if 0 <? featherRadius then featherLoops w h featherRadius alphaChannel
  else alphaChannel.

(** ** removeBackground: writing the alpha channel back *)

(** The conversion a [Uint8ClampedArray] applies to a stored integer. *)
Definition clamp8 (v : Z) : Z := Z.max 0 (Z.min 255 v).

Definition applyAlpha (d : list Z) (alphaChannel : list Z) : list Z :=
  foldl (λ d i, updZ d (i * 4 + 3) (clamp8 (default 0 (nthZ alphaChannel i))))
    d (seqZ 0 (Z.of_nat (length alphaChannel))).

(** The raw mask (step one) and the final mask (after step two). *)
Definition rawMask (img : ImageData) (s : ProcessingSettings) : list Z :=
  classify img (getBackgroundColors img) (detectEdges img (edgeDetection s * 10))
    (colorTolerance s).

Definition finalMask (img : ImageData) (s : ProcessingSettings) : list Z :=
  feather (width img) (height img) (feathering s) (rawMask img s).

(** The image handed to [putImageData]. *)
Definition removeBackground (img : ImageData) (s : ProcessingSettings) : ImageData :=
  {| width := width img; height := height img;
     data := applyAlpha (data img) (finalMask img s) |}.

(** ** The end-to-end scenario: a 10x10 image, blue ring, red interior *)

Definition ringPixel (x y : Z) : bool :=
  (x =? 0) || (y =? 0) || (x =? 9) || (y =? 9).

Definition ringImage : ImageData :=
  {| width := 10; height := 10;
     data := seqZ 0 10 ≫= λ y, seqZ 0 10 ≫= λ x,
       if ringPixel x y then [0; 0; 255; 255] else [255; 0; 0; 255] |}.

Definition ringSettings : ProcessingSettings :=
  {| colorTolerance := 30; edgeDetection := 1; feathering := 0 |}.

(** * Vocabulary of the properties *)

(** ** Distances as real numbers *)

(** [colorDistance], the Euclidean distance of two RGB triples. *)
Definition colorDistance (r1 g1 b1 r2 g2 b2 : Z) : R :=
  R_sqrt.sqrt (IZR (colorDistanceSq r1 g1 b1 r2 g2 b2)).

(** The minimum [colorDistance] from [px] to the colours of a palette;
    [None] for an empty palette. *)
Definition minDistance (px : Color) (palette : list Color) : option R :=
  foldr (λ c m,
    let d := colorDistance (r px) (g px) (b px) (r c) (g c) (b c) in
    Some (match m with Some d' => Rmin d d' | None => d end)) None palette.

(** "The minimum [colorDistance] from [px] to the palette is below [t]." *)
Definition minDistanceBelow (px : Color) (palette : list Color) (t : Z) : Prop :=
  ∃ d, minDistance px palette = Some d ∧ (d < IZR t)%R.

(** The smallest squared distance from [px] to a palette colour; [None] for
    an empty palette. The minimum [colorDistance] is its square root. *)
Definition minDistanceSq (px : Color) (palette : list Color) : option Z :=
  foldr (λ c m,
    let d := colorDistanceSq (r px) (g px) (b px) (r c) (g c) (b c) in
    Some (match m with Some d' => Z.min d d' | None => d end)) None palette.

(** "The minimum [colorDistance] from [px] to the palette is below [t]". *)
Definition minDistance_lt (px : Color) (palette : list Color) (t : Z) : bool :=
  match minDistanceSq px palette with
  | Some d => sqrt_lt d t
  | None => false
  end.

(** Squared Euclidean distance between two pixels. *)
Definition distSq (x1 y1 x2 y2 : Z) : Z :=
  (x2 - x1) * (x2 - x1) + (y2 - y1) * (y2 - y1).

(** ** The square-root comparisons in binary64 *)

Definition sqrt_ltF (n t : Z) : bool :=
  PrimFloat.ltb (PrimFloat.sqrt (float_of_Z n)) (float_of_Z t).
Definition sqrt_gtF (n t : Z) : bool :=
  PrimFloat.ltb (float_of_Z t) (PrimFloat.sqrt (float_of_Z n)).
Definition sqrt_leF (n t : Z) : bool :=
  PrimFloat.leb (PrimFloat.sqrt (float_of_Z n)) (float_of_Z t).

(** [f k && f (k + 1) && ... && f (k + n - 1)]. *)
Fixpoint forall_range (f : Z → bool) (n : nat) (k : Z) : bool :=
  match n with
  | O => true
  | S n' => f k && forall_range f n' (Z.succ k)
  end.

(** ** Loop nests as lists of operations

    Each loop nest of the pipeline applies one kind of operation to an array,
    a plain write or a write of a minimum; the nest is the left fold of that
    operation over the operations it issues, in order. *)

Definition writeAll {A} (ws : list (Z * A)) (l : list A) : list A :=
  foldl (λ acc w, updZ acc w.1 w.2) l ws.

Definition minStep (l : list Z) (w : Z * Z) : list Z :=
  match nthZ l w.1 with
  | Some cur => updZ l w.1 (Z.min cur w.2)
  | None => l
  end.

Definition minAll (ws : list (Z * Z)) (l : list Z) : list Z := foldl minStep l ws.

(** The candidates proposed for cell [i], in order. *)
Definition proposals (i : Z) (ws : list (Z * Z)) : list Z :=
  snd <$> filter (λ w, w.1 = i) ws.

(** The writes [detectEdges] issues: one per interior pixel. *)
Definition edgeWrites (img : ImageData) (threshold : Z) : list (Z * bool) :=
  seqZ 1 (height img - 2) ≫= λ y,
  seqZ 1 (width img - 2) ≫= λ x,
  [(idx (width img) x y, isEdge img threshold x y)].

(** The alpha the classifier leaves at a pixel, from its two tests. *)
Definition classifyPixel (bg edge : bool) : Z :=
  if bg && negb edge then 0 else if bg then translucent else 255.

(** The writes of step one: none for a pixel that is not background-like. *)
Definition classifyWrites (img : ImageData) (backgroundColors : list Color)
    (edges : list bool) (tolerance : Z) : list (Z * Z) :=
  seqZ 0 (height img) ≫= λ y,
  seqZ 0 (width img) ≫= λ x,
  let i := idx (width img) x y in
  let bg := isBackground (pixelAt img x y) backgroundColors tolerance in
  if bg && negb (default false (nthZ edges i)) then [(i, 0)]
  else if bg then [(i, translucent)]
  else [].

(** What one iteration of the innermost loop proposes: a candidate for the
    neighbour, when the neighbour is within the radius and not transparent in
    the raw mask. *)
Definition stepWrites (w featherRadius : Z) (alphaChannel : list Z) (x y dy dx : Z) :
    list (Z * Z) :=
  let neighborIdx := (y + dy) * w + (x + dx) in
  let d2 := dx * dx + dy * dy in
  match nthZ alphaChannel neighborIdx with
  | Some a =>
      if sqrt_le d2 featherRadius && (0 <? a)
      then [(neighborIdx, fadeAlpha featherRadius d2)] else []
  | None => []
  end.

(** Everything the four loops propose, in order. It depends on the raw mask
    only: no iteration reads what an earlier one wrote. *)
Definition featherWrites (w h featherRadius : Z) (alphaChannel : list Z) : list (Z * Z) :=
  seqZ featherRadius (h - 2 * featherRadius) ≫= λ y,
  seqZ featherRadius (w - 2 * featherRadius) ≫= λ x,
  if bool_decide (nthZ alphaChannel (idx w x y) = Some 0) then
    seqZ (- featherRadius) (2 * featherRadius + 1) ≫= λ dy,
    seqZ (- featherRadius) (2 * featherRadius + 1) ≫= λ dx,
    stepWrites w featherRadius alphaChannel x y dy dx
  else [].

(** The writes of the last loop: one per cell of the mask, into the alpha
    byte of its pixel. *)
Definition alphaWrites (alphaChannel : list Z) : list (Z * Z) :=
  (λ i, (i * 4 + 3, clamp8 (default 0 (nthZ alphaChannel i))))
    <$> seqZ 0 (Z.of_nat (length alphaChannel)).

(** ** Pixels, sources and orders *)

(** A pixel of the outermost ring of the image. *)
Definition onBorder (w h x y : Z) : Prop :=
  x = 0 ∨ y = 0 ∨ x = w - 1 ∨ y = h - 1.

(** A feathering source: a pixel of the band the two outer loops visit whose
    raw alpha is exactly 0. *)
Definition zeroSource (w h featherRadius : Z) (alphaChannel : list Z) (sx sy : Z) : Prop :=
  featherRadius ≤ sx < w - featherRadius ∧ featherRadius ≤ sy < h - featherRadius ∧
  nthZ alphaChannel (idx w sx sy) = Some 0.

(** [(sx, sy)] is a transparent pixel of the raw mask nearest to [(px, py)]. *)
Definition nearestZero (w h : Z) (alphaChannel : list Z) (sx sy px py : Z) : Prop :=
  ∀ zx zy, inside w h zx zy → nthZ alphaChannel (idx w zx zy) = Some 0 →
           distSq sx sy px py ≤ distSq zx zy px py.

(** "Feathered alpha values are monotonically non-increasing moving outward
    from a zero-alpha region up to distance [R]": of two pixels that feathering
    can touch (their raw alpha is positive, so neither is a source) and that
    start from the same raw alpha, both within [R] of a source that is the
    nearest transparent pixel of both, the farther one has no greater
    feathered alpha. *)
Definition feather_monotone_outward (w h featherRadius : Z) (alphaChannel : list Z) : Prop :=
  ∀ sx sy px py qx qy a vp vq,
    zeroSource w h featherRadius alphaChannel sx sy →
    inside w h px py → inside w h qx qy →
    nthZ alphaChannel (idx w px py) = Some a →
    nthZ alphaChannel (idx w qx qy) = Some a → 0 < a →
    nearestZero w h alphaChannel sx sy px py →
    nearestZero w h alphaChannel sx sy qx qy →
    distSq sx sy px py ≤ distSq sx sy qx qy ≤ featherRadius * featherRadius →
    nthZ (feather w h featherRadius alphaChannel) (idx w px py) = Some vp →
    nthZ (feather w h featherRadius alphaChannel) (idx w qx qy) = Some vq →
    vq ≤ vp.

(** [c] is a candidate for the pixel [(px, py)]: the value
    [floor(255 * (1 - d / R))] that a source at distance [d <= R] proposes. *)
Definition candidateFor (w h featherRadius : Z) (alphaChannel : list Z) (px py c : Z) : Prop :=
  ∃ sx sy, zeroSource w h featherRadius alphaChannel sx sy ∧
           distSq sx sy px py ≤ featherRadius * featherRadius ∧
           c = fadeAlpha featherRadius (distSq sx sy px py).

(** [v] is the minimum of [a] and of the numbers [C] holds of: it is below
    all of them and it is one of them. *)
Definition minimumOf (a : Z) (C : Z → Prop) (v : Z) : Prop :=
  v ≤ a ∧ (∀ c, C c → v ≤ c) ∧ (v = a ∨ C v).

(** [(qx, qy)] lies outward of [(px, py)]: every source within [R] of
    [(px, py)] is within [R] of [(qx, qy)] too, and at least as far from it. *)
Definition outwardOf (w h featherRadius : Z) (alphaChannel : list Z) (px py qx qy : Z) : Prop :=
  ∀ sx sy, zeroSource w h featherRadius alphaChannel sx sy →
    distSq sx sy px py ≤ featherRadius * featherRadius →
    distSq sx sy px py ≤ distSq sx sy qx qy ≤ featherRadius * featherRadius.

(** The order of the palette: a sample with the larger count comes first. *)
Definition byCountDesc (a b : ColorSample) : Prop := count b ≤ count a.

(** For radius [R]: every candidate at a squared distance within [R * R] is
    a byte, the candidates do not increase with the distance, and they run
    from 255 at distance 0 down to 0 at distance [R]. *)
Definition fadeAlpha_check (R : Z) : bool :=
  forallb (λ d,
    (0 <=? fadeAlpha R d) && (fadeAlpha R d <=? 255) &&
    forallb (λ d', fadeAlpha R d' <=? fadeAlpha R d) (seqZ d (R * R - d + 1)))
    (seqZ 0 (R * R + 1)) &&
  (fadeAlpha R 0 =? 255) && (fadeAlpha R (R * R) =? 0).

(** ** Concrete inputs *)

(** An 8x5 raw mask, opaque except for the two pixels (2,2) and (5,2). *)
Definition twoHoles : list Z :=
  seqZ 0 5 ≫= λ y, seqZ 0 8 ≫= λ x,
  [if (y =? 2) && ((x =? 2) || (x =? 5)) then 0 else 255].

Definition blue : Color := {| r := 0; g := 0; b := 255 |}.
Definition red : Color := {| r := 255; g := 0; b := 0 |}.

(** What the scenario asks of pixel [(x, y)] of the output: on the ring,
    alpha 0 unless the pixel is flagged as an edge; in the interior, alpha
    255. *)
Definition ringExpected (x y : Z) : bool :=
  let out := removeBackground ringImage ringSettings in
  let edges := detectEdges ringImage (edgeDetection ringSettings * 10) in
  let alpha := nthZ (data out) (idx 10 x y * 4 + 3) in
  if ringPixel x y
  then bool_decide (nthZ edges (idx 10 x y) = Some true) || bool_decide (alpha = Some 0)
  else bool_decide (alpha = Some 255).

(** A 4x4 image of one colour. *)
Definition flatImage : ImageData :=
  {| width := 4; height := 4;
     data := seqZ 0 16 ≫= λ _, [90; 120; 200; 255] |}.

(** The scenario's settings with a feathering radius of 2. *)
Definition featherSettings : ProcessingSettings :=
  {| colorTolerance := 30; edgeDetection := 1; feathering := 2 |}.

(** ** The sampler's clusters *)

(** The colours of the sampled border pixels, in sampling order. *)
Definition sampledColors (img : ImageData) : list Color :=
  (λ p, pixelAt img p.1 p.2) <$> samplePixels (width img) (height img).

(** The sum of the counts of a list of clusters. *)
Definition totalCount (colors : list ColorSample) : Z :=
  foldr (λ s n, count s + n) 0 colors.

(** No two colours of the list are within distance 30 of each other. *)
Definition farApart (cs : list Color) : Prop :=
  ∀ i j c1 c2, i ≠ j → cs !! i = Some c1 → cs !! j = Some c2 →
    (30 <= colorDistance (r c1) (g c1) (b c1) (r c2) (g c2) (b c2))%R.

(** An image with the red channel of [ringImage] and other green, blue and
    alpha bytes. *)
Definition ringImageRecoloured : ImageData :=
  {| width := 10; height := 10;
     data := seqZ 0 10 ≫= λ y, seqZ 0 10 ≫= λ x,
       if ringPixel x y then [0; 7; 9; 255] else [255; 200; 100; 0] |}.

(** A 2x2 image. *)
Definition tinyImage : ImageData :=
  {| width := 2; height := 2;
     data := [0; 0; 0; 255; 255; 0; 0; 255; 255; 0; 0; 255; 0; 0; 0; 255] |}.

(** The alpha byte of pixel [(x, y)]. *)
Definition alphaAt (img : ImageData) (x y : Z) : Z :=
  byteAt (data img) (idx (width img) x y * 4 + 3).

(** A 6x6 image, blue except for a green cross of five pixels centred at
    (1,1). Both colours have red channel 0, so the Sobel detector, which reads
    the red channel only, flags nothing; the sampled border pixels are blue. *)
Definition crossImage : ImageData :=
  {| width := 6; height := 6;
     data := seqZ 0 6 ≫= λ y, seqZ 0 6 ≫= λ x,
       if Z.abs (x - 1) + Z.abs (y - 1) <=? 1
       then [0; 255; 0; 255] else [0; 0; 255; 255] |}.

(** A 7x7 image, green with a blue outer ring and one blue pixel at the
    centre (3,3). The red channel is 0 everywhere, so no edge is flagged; the
    raw mask is 0 on the ring and at the centre, 255 elsewhere, and for radius
    2 the centre is the only source. *)
Definition dotImage : ImageData :=
  {| width := 7; height := 7;
     data := seqZ 0 7 ≫= λ y, seqZ 0 7 ≫= λ x,
       if (x =? 0) || (y =? 0) || (x =? 6) || (y =? 6) || ((x =? 3) && (y =? 3))
       then [0; 0; 255; 255] else [0; 255; 0; 255] |}.

(** For a radicand [n]: in binary64, [Math.sqrt(n)] is 0 exactly for [n = 0],
    it lies in [0, 442), and it is below 30 exactly when [n < 900]. *)
Definition colorDistance_check (n : Z) : bool :=
  let d := PrimFloat.sqrt (float_of_Z n) in
  Bool.eqb (PrimFloat.eqb d PrimFloat.zero) (n =? 0) &&
  PrimFloat.leb PrimFloat.zero d && PrimFloat.ltb d (float_of_Z 442) &&
  Bool.eqb (PrimFloat.ltb d (float_of_Z 30)) (sqrt_lt n 30).

(** [wf_image], decided. *)
Definition wf_imageb (img : ImageData) : bool :=
  (0 <? width img) && (0 <? height img) &&
  (Z.of_nat (length (data img)) =? 4 * (width img * height img)) &&
  forallb (λ v, (0 <=? v) && (v <=? 255)) (data img).

(** Two images of the same size with the same R, G and B at every pixel;
    their alpha bytes may differ. *)
Definition sameColours (img img' : ImageData) : Prop :=
  width img = width img' ∧ height img = height img' ∧
  ∀ x y, inside (width img) (height img) x y → pixelAt img x y = pixelAt img' x y.

(** * The simple pipeline: a luminance threshold

    The other [BackgroundRemover] component: one pass over the pixels, which
    clears bright pixels of the first and last rows and dims the other bright
    pixels. Its brightness test is computed in binary64, as written. *)

Module Simple.

Record ProcessingSettings := mkSettings { threshold : Z; smoothing : Z }.

(** [r * 0.299 + g * 0.587 + b * 0.114]; the literals are the binary64
    values nearest to the decimal ones. *)
Definition brightness (r g b : Z) : float :=
  PrimFloat.add
    (PrimFloat.add (PrimFloat.mul (float_of_Z r) 0x1.322d0e5604189p-2%float)
                   (PrimFloat.mul (float_of_Z g) 0x1.2c8b439581062p-1%float))
    (PrimFloat.mul (float_of_Z b) 0x1.d2f1a9fbe76c9p-4%float).

(** [brightness > settings.threshold]. *)
Definition aboveThreshold (r g b : Z) (s : ProcessingSettings) : bool :=
  PrimFloat.ltb (float_of_Z (threshold s)) (brightness r g b).

(** [brightness > settings.threshold * 0.8]. *)
Definition aboveSoftThreshold (r g b : Z) (s : ProcessingSettings) : bool :=
  PrimFloat.ltb (PrimFloat.mul (float_of_Z (threshold s)) 0x1.999999999999ap-1%float)
    (brightness r g b).

(** [i > canvas.width * 4 && i < data.length - canvas.width * 4]. *)
Definition isEdge (w len i : Z) : bool := (w * 4 <? i) && (i <? len - w * 4).

(** The body of the loop at byte offset [i], on the array as it is then. *)
Definition step (w : Z) (s : ProcessingSettings) (d : list Z) (i : Z) : list Z :=
  let r := byteAt d i in
  let g := byteAt d (i + 1) in
  let b := byteAt d (i + 2) in
  let len := Z.of_nat (length d) in
  if aboveThreshold r g b s && negb (isEdge w len i) then updZ d (i + 3) (clamp8 0)
  else if aboveSoftThreshold r g b s
  then updZ d (i + 3) (clamp8 (Z.max 0 (byteAt d (i + 3) - smoothing s * 20)))
  else d.

(** [for (let i = 0; i < data.length; i += 4)]: the offsets [i] takes. *)
Definition offsets (len : Z) : list Z := (λ k, 4 * k) <$> seqZ 0 ((len + 3) `div` 4).

Definition removeBackground (img : ImageData) (s : ProcessingSettings) : ImageData :=
  {| width := width img; height := height img;
     data := foldl (step (width img) s) (data img)
               (offsets (Z.of_nat (length (data img)))) |}.

(** The alpha the loop leaves at the pixel at offset [i] of [d]. *)
Definition pixelAlpha (w : Z) (s : ProcessingSettings) (d : list Z) (i : Z) : Z :=
  let r := byteAt d i in
  let g := byteAt d (i + 1) in
  let b := byteAt d (i + 2) in
  if aboveThreshold r g b s && negb (isEdge w (Z.of_nat (length d)) i) then 0
  else if aboveSoftThreshold r g b s
  then clamp8 (Z.max 0 (byteAt d (i + 3) - smoothing s * 20))
  else byteAt d (i + 3).

(** The write of one iteration, if any. *)
Definition stepWrites (w : Z) (s : ProcessingSettings) (d : list Z) (i : Z) : list (Z * Z) :=
  let r := byteAt d i in
  let g := byteAt d (i + 1) in
  let b := byteAt d (i + 2) in
  if aboveThreshold r g b s && negb (isEdge w (Z.of_nat (length d)) i)
  then [(i + 3, clamp8 0)]
  else if aboveSoftThreshold r g b s
  then [(i + 3, clamp8 (Z.max 0 (byteAt d (i + 3) - smoothing s * 20)))]
  else [].

(** A 3x3 image: white first and last rows, light grey, dark grey and white
    in the middle row, all half transparent. *)
Definition sample : ImageData :=
  {| width := 3; height := 3;
     data := [255; 255; 255; 128;  255; 255; 255; 128;  255; 255; 255; 128;
              200; 200; 200; 128;  40; 40; 40; 128;     255; 255; 255; 128;
              255; 255; 255; 128;  255; 255; 255; 128;  255; 255; 255; 128] |}.

Definition defaults : ProcessingSettings := {| threshold := 128; smoothing := 2 |}.

End Simple.

(** The pixels the simple pipeline treats as "edge" (it only dims them):
    rows 1 to [h - 2], without the first pixel of row 1. *)
Definition simpleProtected (h x y : Z) : Prop :=
  1 ≤ y ≤ h - 2 ∧ ¬ (x = 0 ∧ y = 1).

(** [k] is the floor of [255 * (1 - sqrt n / R)], as a real number. *)
Definition exactFloor (R n k : Z) : Prop :=
  (IZR k <= 255 * (1 - R_sqrt.sqrt (IZR n) / IZR R) < IZR k + 1)%R.

(** [exactFloor], decided on integers: with [m = 255 - k],
    [255 * sqrt n <= m * R] and [(m - 1) * R < 255 * sqrt n], compared as
    squares. *)
Definition exactFloorb (R n k : Z) : bool :=
  (0 <=? 255 - k) && (65025 * n <=? ((255 - k) * R) * ((255 - k) * R)) &&
  ((254 - k <? 0) || (((254 - k) * R) * ((254 - k) * R) <? 65025 * n)).

(** The candidates of radius [R] are the exact floors, except at radius 5
    and squared distance 16. *)
Definition fadeAlpha_exact_check (R : Z) : bool :=
  forallb (λ n, ((R =? 5) && (n =? 16)) || exactFloorb R n (fadeAlpha R n))
    (seqZ 0 (R * R + 1)).

(** * Properties *)

(** ** Array reads and writes *)

Section arrays.
Context {A : Type}.
Implicit Types (l : list A) (i j : Z) (v : A).

Lemma nthZ_Some l i v : nthZ l i = Some v → 0 ≤ i < Z.of_nat (length l).
Proof.
  unfold nthZ. case_bool_decide; [|done].
  intros Hl%lookup_lt_Some. lia.
Qed.

Lemma nthZ_is_Some l i : 0 ≤ i < Z.of_nat (length l) → is_Some (nthZ l i).
Proof.
  intros Hi. unfold nthZ. rewrite bool_decide_true by lia.
  apply lookup_lt_is_Some. lia.
Qed.

Lemma nthZ_None l i : ¬ (0 ≤ i < Z.of_nat (length l)) → nthZ l i = None.
Proof.
  intros Hi. destruct (nthZ l i) eqn:E; [|done].
  apply nthZ_Some in E. lia.
Qed.

Lemma length_updZ l i v : length (updZ l i v) = length l.
Proof. unfold updZ. case_bool_decide; [apply length_insert|done]. Qed.

Lemma nthZ_updZ_eq l i v :
  0 ≤ i < Z.of_nat (length l) → nthZ (updZ l i v) i = Some v.
Proof.
  intros Hi. unfold nthZ, updZ. rewrite !bool_decide_true by lia.
  apply list_lookup_insert_eq. lia.
Qed.

Lemma nthZ_updZ_ne l i j v : i ≠ j → nthZ (updZ l i v) j = nthZ l j.
Proof.
  intros Hne. unfold nthZ, updZ. repeat case_bool_decide; try done.
  apply list_lookup_insert_ne. lia.
Qed.

Lemma nthZ_replicate (n : nat) v i :
  0 ≤ i < Z.of_nat n → nthZ (replicate n v) i = Some v.
Proof.
  intros Hi. unfold nthZ. rewrite bool_decide_true by lia.
  apply lookup_replicate_2. lia.
Qed.

Lemma nthZ_ext l1 l2 :
  length l1 = length l2 → (∀ i, nthZ l1 i = nthZ l2 i) → l1 = l2.
Proof.
  intros Hlen Hnth. apply list_eq. intros n.
  specialize (Hnth (Z.of_nat n)). unfold nthZ in Hnth.
  rewrite bool_decide_true, Nat2Z.id in Hnth by lia. done.
Qed.
End arrays.

(** ** Loop nests as lists of operations

    Each loop nest of the pipeline applies one kind of operation (a plain
    write, or a write of a minimum) to an array; the nest is the left fold of
    that operation over the operations it issues, in order. *)

Lemma foldl_flatten {S B O} (step : S → O → S) (F : S → B → S) (G : B → list O) xs acc :
  (∀ acc x, F acc x = foldl step acc (G x)) →
  foldl F acc xs = foldl step acc (xs ≫= G).
Proof.
  intros HF. revert acc. induction xs as [|x xs IH]; intros acc; [done|].
  cbn [foldl]. rewrite bind_cons, foldl_app, HF. apply IH.
Qed.

(** *** Plain writes: the last write to a cell wins *)

Section writes.
Context {A : Type}.
Implicit Types (l : list A) (ws : list (Z * A)).

Lemma writeAll_cons w ws l : writeAll (w :: ws) l = writeAll ws (updZ l w.1 w.2).
Proof. done. Qed.

Lemma length_writeAll ws l : length (writeAll ws l) = length l.
Proof.
  revert l. induction ws as [|w ws IH]; intros l; [done|].
  rewrite writeAll_cons, IH. apply length_updZ.
Qed.

Lemma writeAll_other ws l i :
  (∀ w, w ∈ ws → w.1 ≠ i) → nthZ (writeAll ws l) i = nthZ l i.
Proof.
  revert l. induction ws as [|w ws IH]; intros l Hws; [done|].
  rewrite writeAll_cons, IH.
  - apply nthZ_updZ_ne, Hws, list_elem_of_here.
  - intros w' Hw'. by apply Hws, list_elem_of_further.
Qed.

Lemma writeAll_hit ws l i v :
  (i, v) ∈ ws → (∀ w, w ∈ ws → w.1 = i → w.2 = v) →
  0 ≤ i < Z.of_nat (length l) → nthZ (writeAll ws l) i = Some v.
Proof.
  revert l. induction ws as [|w ws IH]; intros l Hin Hsame Hi.
  { by apply elem_of_nil in Hin. }
  rewrite writeAll_cons.
  destruct (decide (Exists (λ w', w'.1 = i) ws)) as [Hex|Hno].
  - apply Exists_exists in Hex as ([j v'] & Hw' & Hj). simpl in Hj. subst j.
    apply IH.
    + assert (v' = v) as <-; [|done].
      apply (Hsame (i, v')); [by apply list_elem_of_further|done].
    + intros w'' Hw''. by apply Hsame, list_elem_of_further.
    + by rewrite length_updZ.
  - rewrite (writeAll_other ws).
    + apply elem_of_cons in Hin as [<-|Hin].
      * by apply nthZ_updZ_eq.
      * exfalso. apply Hno, Exists_exists. by exists (i, v).
    + intros w' Hw' Hi'. apply Hno, Exists_exists. by exists w'.
Qed.

Lemma writeAll_values (P : A → Prop) ws l i v :
  (∀ j a, nthZ l j = Some a → P a) → (∀ w, w ∈ ws → P w.2) →
  nthZ (writeAll ws l) i = Some v → P v.
Proof.
  revert l. induction ws as [|w ws IH]; intros l Hl Hws; [by apply Hl|].
  rewrite writeAll_cons. apply IH.
  - intros j a Hj. destruct (decide (w.1 = j)) as [<-|Hne].
    + assert (0 ≤ w.1 < Z.of_nat (length l)) as Hr.
      { apply nthZ_Some in Hj. by rewrite length_updZ in Hj. }
      rewrite nthZ_updZ_eq in Hj by done. injection Hj as <-.
      apply Hws, list_elem_of_here.
    + rewrite nthZ_updZ_ne in Hj by done. by eapply Hl.
  - intros w' Hw'. by apply Hws, list_elem_of_further.
Qed.
End writes.

(** *** Writes of a minimum: a cell ends as the minimum of its first value
    and of everything proposed for it *)

Section min_writes.
Implicit Types (l : list Z) (ws : list (Z * Z)).

Lemma minAll_cons w ws l : minAll (w :: ws) l = minAll ws (minStep l w).
Proof. done. Qed.

Lemma length_minStep l w : length (minStep l w) = length l.
Proof. unfold minStep. destruct (nthZ l w.1); [apply length_updZ|done]. Qed.

Lemma length_minAll ws l : length (minAll ws l) = length l.
Proof.
  revert l. induction ws as [|w ws IH]; intros l; [done|].
  rewrite minAll_cons, IH. apply length_minStep.
Qed.

Lemma nthZ_minStep l w i :
  nthZ (minStep l w) i =
  (λ a, if decide (w.1 = i) then Z.min a w.2 else a) <$> nthZ l i.
Proof.
  unfold minStep. destruct (decide (w.1 = i)) as [<-|Hne].
  - destruct (nthZ l w.1) as [cur|] eqn:E; simpl.
    + apply nthZ_updZ_eq. by apply nthZ_Some in E.
    + done.
  - destruct (nthZ l w.1) as [cur|].
    + rewrite nthZ_updZ_ne by done. by destruct (nthZ l i).
    + by destruct (nthZ l i).
Qed.

Lemma nthZ_minAll ws l i :
  nthZ (minAll ws l) i = (λ a, foldl Z.min a (proposals i ws)) <$> nthZ l i.
Proof.
  revert l. induction ws as [|w ws IH]; intros l.
  { change (minAll [] l) with l. by destruct (nthZ l i). }
  rewrite minAll_cons, IH, nthZ_minStep. unfold proposals.
  rewrite filter_cons. destruct (nthZ l i) as [a|]; [|done]. simpl.
  by destruct (decide (w.1 = i)).
Qed.

Lemma foldl_min_le a cs : foldl Z.min a cs ≤ a.
Proof.
  revert a. induction cs as [|c cs IH]; intros a; simpl; [lia|].
  specialize (IH (Z.min a c)). lia.
Qed.

Lemma foldl_min_le_elem a cs c : c ∈ cs → foldl Z.min a cs ≤ c.
Proof.
  revert a. induction cs as [|c' cs IH]; intros a Hc.
  { by apply elem_of_nil in Hc. }
  simpl. apply elem_of_cons in Hc as [->|Hc]; [|by apply IH].
  pose proof (foldl_min_le (Z.min a c') cs). lia.
Qed.

Lemma foldl_min_ge lo a cs :
  lo ≤ a → (∀ c, c ∈ cs → lo ≤ c) → lo ≤ foldl Z.min a cs.
Proof.
  revert a. induction cs as [|c' cs IH]; intros a Ha Hcs; simpl; [done|].
  apply IH.
  - pose proof (Hcs c' (list_elem_of_here _ _)). lia.
  - intros c Hc. by apply Hcs, list_elem_of_further.
Qed.

Lemma foldl_min_attained a cs : foldl Z.min a cs = a ∨ foldl Z.min a cs ∈ cs.
Proof.
  revert a. induction cs as [|c cs IH]; intros a; [by left|]. simpl.
  destruct (IH (Z.min a c)) as [Heq|Hin].
  - rewrite Heq. destruct (Z.min_spec a c) as [[_ ->]|[_ ->]];
      [by left|right; apply list_elem_of_here].
  - right. by apply list_elem_of_further.
Qed.

Lemma elem_of_proposals i c ws : c ∈ proposals i ws ↔ (i, c) ∈ ws.
Proof.
  unfold proposals. rewrite list_elem_of_fmap. split.
  - intros ([j c'] & -> & Hw). apply list_elem_of_filter in Hw as [Hj Hw].
    simpl in *. by subst j.
  - intros Hw. exists (i, c). split; [done|]. by apply list_elem_of_filter.
Qed.
End min_writes.

(** ** Pixel indices *)

Lemma idx_inj w x y x' y' :
  0 ≤ x < w → 0 ≤ x' < w → idx w x y = idx w x' y' → x = x' ∧ y = y'.
Proof. unfold idx. intros Hx Hx' Heq. assert (y = y') by nia. subst. lia. Qed.

Lemma idx_in_range w h x y :
  inside w h x y → 0 ≤ idx w x y < Z.of_nat (Z.to_nat (w * h)).
Proof. unfold inside, idx. intros [Hx Hy]. nia. Qed.

(** Every index of a [w * h] array is the index of a pixel. *)
Lemma idx_surj w h i :
  0 < w → 0 ≤ i < w * h → ∃ x y, inside w h x y ∧ i = idx w x y.
Proof.
  intros Hw Hi. exists (i `mod` w), (i `div` w). unfold inside, idx.
  pose proof (Z.mod_pos_bound i w Hw). pose proof (Z.div_mod i w ltac:(lia)).
  assert (0 ≤ i `div` w) by (apply Z.div_pos; lia).
  assert (i `div` w < h) by (apply Z.div_lt_upper_bound; nia).
  lia.
Qed.

(** ** detectEdges *)

Lemma detectEdges_writes img threshold :
  detectEdges img threshold =
  writeAll (edgeWrites img threshold)
    (replicate (Z.to_nat (width img * height img)) false).
Proof.
  unfold detectEdges, edgeWrites, writeAll.
  apply foldl_flatten. intros acc y. by apply foldl_flatten.
Qed.

Lemma elem_of_edgeWrites img threshold w :
  w ∈ edgeWrites img threshold ↔
  ∃ x y, 1 ≤ x < width img - 1 ∧ 1 ≤ y < height img - 1 ∧
         w = (idx (width img) x y, isEdge img threshold x y).
Proof.
  unfold edgeWrites. rewrite list_elem_of_bind. split.
  - intros (y & Hw & Hy). apply list_elem_of_bind in Hw as (x & Hw & Hx).
    apply list_elem_of_singleton in Hw. apply elem_of_seqZ in Hx, Hy.
    exists x, y. repeat split; try done; lia.
  - intros (x & y & Hx & Hy & ->). exists y. split; [|apply elem_of_seqZ; lia].
    apply list_elem_of_bind. exists x. split; [|apply elem_of_seqZ; lia].
    by apply list_elem_of_singleton.
Qed.

Lemma length_detectEdges img threshold :
  length (detectEdges img threshold) = Z.to_nat (width img * height img).
Proof. by rewrite detectEdges_writes, length_writeAll, length_replicate. Qed.

(** The edge flag of every pixel: the Sobel test in the interior, [false]
    on the border. *)
Lemma nthZ_detectEdges img threshold x y :
  inside (width img) (height img) x y →
  nthZ (detectEdges img threshold) (idx (width img) x y) =
  Some (if bool_decide (1 ≤ x < width img - 1 ∧ 1 ≤ y < height img - 1)
        then isEdge img threshold x y else false).
Proof.
  intros Hin. pose proof (idx_in_range _ _ _ _ Hin) as Hr. destruct Hin as [Hx Hy].
  rewrite detectEdges_writes. case_bool_decide as Hint.
  - apply writeAll_hit.
    + apply elem_of_edgeWrites. exists x, y. split_and!; [lia..|done].
    + intros w (x' & y' & Hx' & Hy' & ->)%elem_of_edgeWrites Heq. simpl in *.
      apply idx_inj in Heq as [-> ->]; [done|lia..].
    + by rewrite length_replicate.
  - rewrite writeAll_other; [by apply nthZ_replicate|].
    intros w (x' & y' & Hx' & Hy' & ->)%elem_of_edgeWrites Heq. simpl in *.
    apply idx_inj in Heq as [-> ->]; [|lia..]. apply Hint. lia.
Qed.

(** The red channel a Sobel tap reads is the red channel of that pixel. *)
Lemma sobel_uniform img c x y :
  (∀ x' y', inside (width img) (height img) x' y' → r (pixelAt img x' y') = c) →
  1 ≤ x < width img - 1 → 1 ≤ y < height img - 1 →
  sobel img x y = (0, 0).
Proof.
  intros Hc Hx Hy. unfold sobel.
  assert (∀ x' y', 0 ≤ x' < width img → 0 ≤ y' < height img →
            byteAt (data img) ((y' * width img + x') * 4) = c) as Hb.
  { intros x' y' Hx' Hy'. by apply (Hc x' y'). }
  rewrite !Hb by lia. f_equal; lia.
Qed.

(** C5. [detectEdges] on an image all of whose pixels have one colour gives
    an edge mask that is [false] at every pixel (for a threshold that is not
    negative, as every threshold [edgeDetection * 10] is), and on any image and
    at any threshold it gives [false] at every border pixel, that is where
    [x = 0], [y = 0], [x = width - 1] or [y = height - 1]. *)
Theorem detectEdges_uniform_and_border (img : ImageData) (threshold : Z) :
  (∀ c, (∀ x y, inside (width img) (height img) x y → pixelAt img x y = c) →
        0 ≤ threshold →
        ∀ x y, inside (width img) (height img) x y →
               nthZ (detectEdges img threshold) (idx (width img) x y) = Some false) ∧
  (∀ x y, inside (width img) (height img) x y →
          x = 0 ∨ y = 0 ∨ x = width img - 1 ∨ y = height img - 1 →
          nthZ (detectEdges img threshold) (idx (width img) x y) = Some false).
Proof.
  split.
  - intros c Hc Hth x y Hin. rewrite nthZ_detectEdges by done.
    case_bool_decide as Hint; [|done]. destruct Hint as [Hx Hy].
    unfold isEdge. rewrite (sobel_uniform img (r c)); [|by intros ?? ->%Hc|done..].
    unfold sqrt_gt. f_equal. apply orb_false_iff. split; [lia|nia].
  - intros x y Hin Hb. rewrite nthZ_detectEdges by done.
    rewrite bool_decide_false; [done|lia].
Qed.

(** ** The classifier *)

Lemma translucent_76 : translucent = 76.
Proof. vm_compute. reflexivity. Qed.

Lemma sqrt_lt_min a a' t : sqrt_lt (Z.min a a') t = sqrt_lt a t || sqrt_lt a' t.
Proof.
  unfold sqrt_lt. destruct (0 <? t); simpl; [|done].
  destruct (Z.ltb_spec a (t * t)), (Z.ltb_spec a' (t * t)),
    (Z.ltb_spec (Z.min a a') (t * t)); simpl; try done; lia.
Qed.

(** The loop with [break] decides whether the minimum distance is below the
    tolerance. *)
Lemma isBackground_min px palette t :
  isBackground px palette t = minDistance_lt px palette t.
Proof.
  unfold isBackground, minDistance_lt.
  induction palette as [|c palette IH]; [done|].
  cbn [existsb minDistanceSq foldr]. fold (minDistanceSq px palette).
  rewrite IH. unfold colorDistance_lt.
  destruct (minDistanceSq px palette) as [d'|].
  - by rewrite sqrt_lt_min.
  - by rewrite orb_false_r.
Qed.

Lemma classify_writes img backgroundColors edges tolerance :
  classify img backgroundColors edges tolerance =
  writeAll (classifyWrites img backgroundColors edges tolerance)
    (replicate (Z.to_nat (width img * height img)) 255).
Proof.
  unfold classify, classifyWrites, writeAll.
  apply foldl_flatten. intros acc y. apply foldl_flatten. intros acc' x.
  unfold classifyStep.
  destruct (isBackground _ _ _); [|done].
  by destruct (default false _).
Qed.

Lemma elem_of_classifyWrites img backgroundColors edges tolerance w :
  w ∈ classifyWrites img backgroundColors edges tolerance ↔
  ∃ x y, inside (width img) (height img) x y ∧
    isBackground (pixelAt img x y) backgroundColors tolerance = true ∧
    w = (idx (width img) x y,
         classifyPixel true (default false (nthZ edges (idx (width img) x y)))).
Proof.
  unfold classifyWrites, inside. rewrite list_elem_of_bind. split.
  - intros (y & Hw & Hy). apply list_elem_of_bind in Hw as (x & Hw & Hx).
    apply elem_of_seqZ in Hx, Hy. exists x, y.
    destruct (isBackground _ _ _); [|by apply elem_of_nil in Hw].
    unfold classifyPixel.
    destruct (default false _); simpl in *;
      apply list_elem_of_singleton in Hw; split_and!; try done; lia.
  - intros (x & y & [Hx Hy] & Hbg & ->). exists y. split; [|apply elem_of_seqZ; lia].
    apply list_elem_of_bind. exists x. split; [|apply elem_of_seqZ; lia].
    rewrite Hbg. unfold classifyPixel.
    destruct (default false _); simpl; by apply list_elem_of_singleton.
Qed.

Lemma length_classify img backgroundColors edges tolerance :
  length (classify img backgroundColors edges tolerance) =
  Z.to_nat (width img * height img).
Proof. by rewrite classify_writes, length_writeAll, length_replicate. Qed.

(** The raw alpha of every pixel. *)
Lemma nthZ_classify img backgroundColors edges tolerance x y :
  inside (width img) (height img) x y →
  nthZ (classify img backgroundColors edges tolerance) (idx (width img) x y) =
  Some (classifyPixel (isBackground (pixelAt img x y) backgroundColors tolerance)
          (default false (nthZ edges (idx (width img) x y)))).
Proof.
  intros Hin. pose proof (idx_in_range _ _ _ _ Hin) as Hr.
  rewrite classify_writes.
  destruct (isBackground (pixelAt img x y) _ _) eqn:Hbg.
  - apply writeAll_hit.
    + apply elem_of_classifyWrites. by exists x, y.
    + intros w (x' & y' & [Hx' Hy'] & _ & ->)%elem_of_classifyWrites Heq.
      simpl in *. destruct Hin. by apply idx_inj in Heq as [-> ->].
    + by rewrite length_replicate.
  - rewrite writeAll_other; [by apply nthZ_replicate|].
    intros w (x' & y' & [Hx' Hy'] & Hbg' & ->)%elem_of_classifyWrites Heq.
    simpl in *. destruct Hin. apply idx_inj in Heq as [-> ->]; [|done..].
    congruence.
Qed.

(** The comparison of squares decides the comparison of the distance, as a
    real number, with the tolerance. *)
Lemma sqrt_IZR_square t : 0 ≤ t → R_sqrt.sqrt (IZR (t * t)) = IZR t.
Proof. intros Ht. rewrite mult_IZR. apply sqrt_square. by apply IZR_le. Qed.

Lemma sqrt_lt_real n t :
  0 ≤ n → sqrt_lt n t = true ↔ (R_sqrt.sqrt (IZR n) < IZR t)%R.
Proof.
  intros Hn. unfold sqrt_lt. rewrite andb_true_iff, !Z.ltb_lt. split.
  - intros [Ht Hlt]. rewrite <- (sqrt_IZR_square t) by lia.
    apply sqrt_lt_1_alt. split; [by apply IZR_le|by apply IZR_lt].
  - intros Hlt. assert (0 < t) as Ht.
    { apply lt_IZR. eapply Rle_lt_trans; [apply sqrt_pos|done]. }
    split; [done|]. apply lt_IZR, sqrt_lt_0_alt.
    by rewrite sqrt_IZR_square by lia.
Qed.

Lemma colorDistanceSq_nonneg r1 g1 b1 r2 g2 b2 :
  0 ≤ colorDistanceSq r1 g1 b1 r2 g2 b2.
Proof. unfold colorDistanceSq. nia. Qed.

Lemma colorDistance_lt_real c1 c2 t :
  colorDistance_lt c1 c2 t = true ↔
  (colorDistance (r c1) (g c1) (b c1) (r c2) (g c2) (b c2) < IZR t)%R.
Proof. apply sqrt_lt_real, colorDistanceSq_nonneg. Qed.

Lemma minDistanceSq_nonneg px palette d :
  minDistanceSq px palette = Some d → 0 ≤ d.
Proof.
  revert d. induction palette as [|c palette IH]; intros d; [done|].
  cbn [minDistanceSq foldr]. fold (minDistanceSq px palette).
  pose proof (colorDistanceSq_nonneg (r px) (g px) (b px) (r c) (g c) (b c)).
  destruct (minDistanceSq px palette) as [d'|]; intros [= <-]; [|done].
  specialize (IH d' eq_refl). lia.
Qed.

Lemma sqrt_IZR_min a a' :
  0 ≤ a → 0 ≤ a' →
  R_sqrt.sqrt (IZR (Z.min a a')) = Rmin (R_sqrt.sqrt (IZR a)) (R_sqrt.sqrt (IZR a')).
Proof.
  intros Ha Ha'. destruct (Z.le_ge_cases a a') as [Hle|Hle].
  - rewrite Z.min_l, Rmin_left; [done| |done].
    apply sqrt_le_1_alt. by apply IZR_le.
  - rewrite Z.min_r, Rmin_right; [done| |done].
    apply sqrt_le_1_alt. by apply IZR_le.
Qed.

(** The minimum distance is the square root of the minimum squared
    distance. *)
Lemma minDistance_sqrt px palette :
  minDistance px palette = (λ d, R_sqrt.sqrt (IZR d)) <$> minDistanceSq px palette.
Proof.
  induction palette as [|c palette IH]; [done|].
  cbn [minDistance minDistanceSq foldr].
  fold (minDistance px palette). fold (minDistanceSq px palette). rewrite IH.
  destruct (minDistanceSq px palette) as [d'|] eqn:Hd'; simpl; [|done].
  unfold colorDistance. rewrite sqrt_IZR_min; [done|apply colorDistanceSq_nonneg|].
  by eapply minDistanceSq_nonneg.
Qed.

Lemma minDistance_lt_real px palette t :
  minDistance_lt px palette t = true ↔ minDistanceBelow px palette t.
Proof.
  unfold minDistance_lt, minDistanceBelow. rewrite minDistance_sqrt.
  destruct (minDistanceSq px palette) as [d|] eqn:Hd; simpl.
  - rewrite sqrt_lt_real by (by eapply minDistanceSq_nonneg). split.
    + intros Hlt. by eexists.
    + by intros (d' & [= <-] & Hlt).
  - split; [done|]. by intros (d' & [=] & _).
Qed.

(** C2. For every pixel: when the minimum colour distance from its RGB to
    the palette is below the tolerance and the pixel is not marked as an edge,
    its raw alpha is 0; when that minimum is below the tolerance and the pixel
    is marked as an edge, its raw alpha is [floor(255 * 0.3) = 76]; otherwise
    its raw alpha is 255. *)
Theorem classify_alpha (img : ImageData) (palette : list Color) (edges : list bool)
    (tolerance x y : Z) :
  inside (width img) (height img) x y →
  let px := pixelAt img x y in
  let edge := nthZ edges (idx (width img) x y) in
  let alpha := nthZ (classify img palette edges tolerance) (idx (width img) x y) in
  (minDistanceBelow px palette tolerance → edge = Some false → alpha = Some 0) ∧
  (minDistanceBelow px palette tolerance → edge = Some true → alpha = Some 76) ∧
  (¬ minDistanceBelow px palette tolerance → alpha = Some 255).
Proof.
  intros Hin px edge alpha. subst px edge alpha.
  rewrite nthZ_classify, isBackground_min by done.
  rewrite <- minDistance_lt_real.
  split_and!.
  - by intros -> ->.
  - intros -> ->. by rewrite <- translucent_76.
  - by intros ->%not_true_is_false.
Qed.

(** ** Feathering *)

Lemma featherStep_minStep w featherRadius alphaChannel x y dy newAlpha dx :
  featherStep w featherRadius alphaChannel x y dy newAlpha dx =
  foldl minStep newAlpha (stepWrites w featherRadius alphaChannel x y dy dx).
Proof.
  unfold featherStep, stepWrites.
  destruct (nthZ alphaChannel _) as [a|]; [|done].
  destruct (sqrt_le _ _ && (0 <? a)); simpl.
  - unfold minStep. simpl. by destruct (nthZ newAlpha _).
  - by destruct (nthZ newAlpha _).
Qed.

Lemma featherLoops_writes w h featherRadius alphaChannel :
  featherLoops w h featherRadius alphaChannel =
  minAll (featherWrites w h featherRadius alphaChannel) alphaChannel.
Proof.
  unfold featherLoops, featherWrites, minAll.
  apply foldl_flatten. intros acc y. apply foldl_flatten. intros acc' x.
  case_bool_decide; [|done].
  apply foldl_flatten. intros acc'' dy. apply foldl_flatten. intros acc''' dx.
  apply featherStep_minStep.
Qed.

Lemma elem_of_featherWrites w h featherRadius alphaChannel i c :
  (i, c) ∈ featherWrites w h featherRadius alphaChannel ↔
  ∃ x y dx dy a,
    zeroSource w h featherRadius alphaChannel x y ∧
    - featherRadius ≤ dx ≤ featherRadius ∧ - featherRadius ≤ dy ≤ featherRadius ∧
    nthZ alphaChannel (idx w (x + dx) (y + dy)) = Some a ∧ 0 < a ∧
    sqrt_le (dx * dx + dy * dy) featherRadius = true ∧
    i = idx w (x + dx) (y + dy) ∧ c = fadeAlpha featherRadius (dx * dx + dy * dy).
Proof.
  unfold featherWrites, zeroSource, idx. split.
  - intros (y & Hw & Hy)%list_elem_of_bind.
    apply list_elem_of_bind in Hw as (x & Hw & Hx).
    case_bool_decide as Hz; [|by apply elem_of_nil in Hw].
    apply list_elem_of_bind in Hw as (dy & Hw & Hdy).
    apply list_elem_of_bind in Hw as (dx & Hw & Hdx).
    apply elem_of_seqZ in Hx, Hy, Hdx, Hdy. unfold stepWrites in Hw.
    destruct (nthZ alphaChannel ((y + dy) * w + (x + dx))) as [a|] eqn:Ha;
      [|by apply elem_of_nil in Hw].
    destruct (sqrt_le _ _) eqn:Hle; [|by apply elem_of_nil in Hw].
    destruct (Z.ltb_spec 0 a); [|by apply elem_of_nil in Hw].
    apply list_elem_of_singleton in Hw. injection Hw as -> ->.
    exists x, y, dx, dy, a. split_and!; try done; lia.
  - intros (x & y & dx & dy & a & (Hx & Hy & Hz) & Hdx & Hdy & Ha & Hpos & Hle & -> & ->).
    apply list_elem_of_bind. exists y. split; [|apply elem_of_seqZ; lia].
    apply list_elem_of_bind. exists x. split; [|apply elem_of_seqZ; lia].
    rewrite bool_decide_true by done.
    apply list_elem_of_bind. exists dy. split; [|apply elem_of_seqZ; lia].
    apply list_elem_of_bind. exists dx. split; [|apply elem_of_seqZ; lia].
    unfold stepWrites. rewrite Ha, Hle.
    destruct (Z.ltb_spec 0 a); [|lia]. by apply list_elem_of_singleton.
Qed.

Lemma length_feather w h featherRadius alphaChannel :
  length (feather w h featherRadius alphaChannel) = length alphaChannel.
Proof.
  unfold feather. destruct (0 <? featherRadius); [|done].
  by rewrite featherLoops_writes, length_minAll.
Qed.

(** The feathered alpha of a cell: the minimum of its raw alpha and of the
    candidates proposed for it. *)
Lemma nthZ_feather w h featherRadius alphaChannel i :
  0 < featherRadius →
  nthZ (feather w h featherRadius alphaChannel) i =
  (λ a, foldl Z.min a (proposals i (featherWrites w h featherRadius alphaChannel)))
    <$> nthZ alphaChannel i.
Proof.
  intros HR. unfold feather. destruct (Z.ltb_spec 0 featherRadius); [|lia].
  by rewrite featherLoops_writes, nthZ_minAll.
Qed.

(** No candidate is ever proposed for a cell whose raw alpha is 0. *)
Lemma proposals_zero w h featherRadius alphaChannel i :
  nthZ alphaChannel i = Some 0 →
  proposals i (featherWrites w h featherRadius alphaChannel) = [].
Proof.
  intros Hz. apply elem_of_nil_inv. intros c Hc%elem_of_proposals.
  apply elem_of_featherWrites in Hc
    as (x & y & dx & dy & a & _ & _ & _ & Ha & Hpos & _ & -> & _).
  rewrite Hz in Ha. injection Ha as <-. lia.
Qed.

(** The loop nest itself changes nothing at radius 0: the only neighbour of
    a source is the source, whose raw alpha is not positive. *)
Lemma featherLoops_zero w h alphaChannel :
  featherLoops w h 0 alphaChannel = alphaChannel.
Proof.
  rewrite featherLoops_writes.
  replace (featherWrites w h 0 alphaChannel) with (@nil (Z * Z)); [done|].
  symmetry. apply elem_of_nil_inv. intros [i c] Hw.
  apply elem_of_featherWrites in Hw
    as (x & y & dx & dy & a & (_ & _ & Hz) & Hdx & Hdy & Ha & Hpos & _).
  assert (dx = 0) as -> by lia. assert (dy = 0) as -> by lia.
  rewrite !Z.add_0_r, Hz in Ha. injection Ha as <-. lia.
Qed.

(** C6. Feathering with radius 0 is the identity: the output mask is the
    input mask, for every mask (the stage is skipped, and its loops would not
    change a cell either). *)
Theorem feather_zero_identity (w h : Z) (alphaChannel : list Z) :
  feather w h 0 alphaChannel = alphaChannel ∧
  featherLoops w h 0 alphaChannel = alphaChannel.
Proof.
  split; [|apply featherLoops_zero].
  unfold feather. by destruct (Z.ltb_spec 0 0); [lia|].
Qed.

(** C9. Feathering never raises an alpha value: for every raw mask and every
    radius, the feathered alpha of every pixel is at most its raw alpha, and a
    pixel whose raw alpha is 0 still has alpha 0. *)
Theorem feather_le_raw (w h featherRadius : Z) (alphaChannel : list Z) (i a : Z) :
  nthZ alphaChannel i = Some a →
  ∃ v, nthZ (feather w h featherRadius alphaChannel) i = Some v ∧
       v ≤ a ∧ (a = 0 → v = 0).
Proof.
  intros Ha. destruct (Z.ltb_spec 0 featherRadius) as [HR|HR].
  - rewrite nthZ_feather, Ha by done. simpl. eexists. split_and!; [done|..].
    + apply foldl_min_le.
    + intros ->. by rewrite proposals_zero.
  - unfold feather. destruct (Z.ltb_spec 0 featherRadius); [lia|].
    exists a. split_and!; [done|lia|done].
Qed.

(** *** The candidate [floor(255 * (1 - d / R))] for the radii of the slider *)

Lemma fadeAlpha_checked R : 1 ≤ R ≤ 5 → fadeAlpha_check R = true.
Proof.
  intros HR.
  assert (R = 1 ∨ R = 2 ∨ R = 3 ∨ R = 4 ∨ R = 5) as [->|[->|[->|[->| ->]]]] by lia;
    vm_compute; reflexivity.
Qed.

Lemma forallb_seqZ (f : Z → bool) m n k :
  forallb f (seqZ m n) = true → m ≤ k < m + n → f k = true.
Proof.
  intros Hall Hk. rewrite forallb_forall in Hall. apply Hall.
  apply list_elem_of_In, elem_of_seqZ. lia.
Qed.

Lemma fadeAlpha_byte R d :
  1 ≤ R ≤ 5 → 0 ≤ d ≤ R * R → 0 ≤ fadeAlpha R d ≤ 255.
Proof.
  intros HR Hd. pose proof (fadeAlpha_checked R HR) as Hc. unfold fadeAlpha_check in Hc.
  apply andb_prop in Hc as [[Hc _]%andb_prop _].
  apply (forallb_seqZ _ _ _ d) in Hc; [|lia].
  apply andb_prop in Hc as [[H0%Z.leb_le H255%Z.leb_le]%andb_prop _]. lia.
Qed.

Lemma fadeAlpha_antitone R d d' :
  1 ≤ R ≤ 5 → 0 ≤ d ≤ d' → d' ≤ R * R → fadeAlpha R d' ≤ fadeAlpha R d.
Proof.
  intros HR Hd Hd'. pose proof (fadeAlpha_checked R HR) as Hc. unfold fadeAlpha_check in Hc.
  apply andb_prop in Hc as [[Hc _]%andb_prop _].
  apply (forallb_seqZ _ _ _ d) in Hc; [|lia].
  apply andb_prop in Hc as [_ Hc].
  apply (forallb_seqZ _ _ _ d') in Hc; [|lia]. by apply Z.leb_le.
Qed.

Lemma fadeAlpha_ends R : 1 ≤ R ≤ 5 → fadeAlpha R 0 = 255 ∧ fadeAlpha R (R * R) = 0.
Proof.
  intros HR. pose proof (fadeAlpha_checked R HR) as Hc. unfold fadeAlpha_check in Hc.
  apply andb_prop in Hc as [[_ H0%Z.eqb_eq]%andb_prop HR2%Z.eqb_eq]. done.
Qed.

Lemma sqrt_le_true n t : sqrt_le n t = true ↔ 0 ≤ t ∧ n ≤ t * t.
Proof. unfold sqrt_le. rewrite andb_true_iff. lia. Qed.

(** With a radius of the slider, feathering keeps a mask of bytes a mask of
    bytes. *)
Lemma feather_byte w h featherRadius alphaChannel i v :
  featherRadius ≤ 5 →
  (∀ j a, nthZ alphaChannel j = Some a → 0 ≤ a ≤ 255) →
  nthZ (feather w h featherRadius alphaChannel) i = Some v → 0 ≤ v ≤ 255.
Proof.
  intros HR Hraw Hv. destruct (Z.ltb_spec 0 featherRadius) as [Hpos|Hneg].
  - rewrite nthZ_feather in Hv by done.
    destruct (nthZ alphaChannel i) as [a|] eqn:Ha; [|done].
    injection Hv as <-. pose proof (Hraw _ _ Ha). split.
    + apply foldl_min_ge; [lia|]. intros c Hc%elem_of_proposals.
      apply elem_of_featherWrites in Hc
        as (x & y & dx & dy & a' & _ & _ & _ & _ & _ & Hle%sqrt_le_true & _ & ->).
      apply fadeAlpha_byte; [lia|nia].
    + pose proof (foldl_min_le a (proposals i (featherWrites w h featherRadius alphaChannel))).
      lia.
  - unfold feather in Hv. destruct (Z.ltb_spec 0 featherRadius); [lia|]. by eapply Hraw.
Qed.

(** *** Monotonicity outward, as stated and as it holds *)

Lemma inside_forallb w h (f : Z → Z → bool) :
  forallb (λ y, forallb (λ x, f x y) (seqZ 0 w)) (seqZ 0 h) = true →
  ∀ x y, inside w h x y → f x y = true.
Proof.
  intros Hall x y [Hx Hy].
  apply (forallb_seqZ _ _ _ y) in Hall; [|lia].
  by apply (forallb_seqZ _ _ _ x) in Hall; [|lia].
Qed.

Lemma nearestZero_checked w h alphaChannel sx sy px py :
  forallb (λ zy, forallb (λ zx,
    implb (bool_decide (nthZ alphaChannel (idx w zx zy) = Some 0))
          (distSq sx sy px py <=? distSq zx zy px py)) (seqZ 0 w)) (seqZ 0 h) = true →
  nearestZero w h alphaChannel sx sy px py.
Proof.
  intros Hall zx zy Hin Hz.
  apply (inside_forallb w h _ Hall) in Hin.
  rewrite bool_decide_true in Hin by done. by apply Z.leb_le.
Qed.

(** C3, as stated, fails, and on a mask the pipeline itself produces. The raw
    mask of [crossImage] is 255 on the five pixels of the cross and 0
    elsewhere; with radius 2 the sources are (2,2), (3,2), (2,3) and (3,3).
    The pixel (2,1) is at distance 1 from the source (2,2) and is feathered to
    0, because the source (2,3) is at distance 2 from it; the pixel (1,1),
    farther from (2,2) at distance sqrt 2, has no other source in range and is
    feathered to 74. Both have raw alpha 255, and (2,2) is a nearest
    transparent pixel of both. *)
Lemma feather_not_monotone_outward :
  ¬ feather_monotone_outward (width crossImage) (height crossImage)
      (feathering featherSettings) (rawMask crossImage featherSettings).
Proof.
  intros Hmono.
  assert (74 ≤ 0) as Habs; [|lia].
  apply (Hmono 2 2 2 1 1 1 255 0 74).
  - unfold zeroSource. split_and!; [simpl; lia..|vm_compute; reflexivity].
  - unfold inside. simpl. lia.
  - unfold inside. simpl. lia.
  - vm_compute. reflexivity.
  - vm_compute. reflexivity.
  - lia.
  - apply nearestZero_checked. vm_compute. reflexivity.
  - apply nearestZero_checked. vm_compute. reflexivity.
  - vm_compute. split; discriminate.
  - vm_compute. reflexivity.
  - vm_compute. reflexivity.
Qed.

Lemma square_le_bound d e R : 0 ≤ R → d * d + e * e ≤ R * R → - R ≤ d ≤ R.
Proof. intros HR Hd. split; nia. Qed.

Lemma distSq_nonneg x1 y1 x2 y2 : 0 ≤ distSq x1 y1 x2 y2.
Proof.
  unfold distSq.
  pose proof (Z.square_nonneg (x2 - x1)). pose proof (Z.square_nonneg (y2 - y1)). lia.
Qed.

(** A minimum is determined by what it is the minimum of. *)
Lemma minimumOf_unique a C v v' : minimumOf a C v → minimumOf a C v' → v = v'.
Proof.
  intros (Hle & Hall & Hatt) (Hle' & Hall' & Hatt').
  apply Z.le_antisymm.
  - destruct Hatt' as [->|Hc]; [done|by apply Hall].
  - destruct Hatt as [->|Hc]; [done|by apply Hall'].
Qed.

(** No candidate is proposed for a cell whose raw alpha is not positive. *)
Lemma proposals_not_positive w h featherRadius alphaChannel i a :
  nthZ alphaChannel i = Some a → a ≤ 0 →
  proposals i (featherWrites w h featherRadius alphaChannel) = [].
Proof.
  intros Hz Hle. apply elem_of_nil_inv. intros c Hc%elem_of_proposals.
  apply elem_of_featherWrites in Hc
    as (x & y & dx & dy & a' & _ & _ & _ & Ha & Hpos & _ & -> & _).
  rewrite Hz in Ha. injection Ha as <-. lia.
Qed.

(** What the loops propose for a pixel of positive raw alpha: exactly the
    candidates of the sources within the radius. *)
Lemma proposals_candidateFor w h featherRadius alphaChannel px py a c :
  0 < featherRadius → inside w h px py →
  nthZ alphaChannel (idx w px py) = Some a → 0 < a →
  c ∈ proposals (idx w px py) (featherWrites w h featherRadius alphaChannel) ↔
  candidateFor w h featherRadius alphaChannel px py c.
Proof.
  intros HR [Hpx Hpy] Ha Hpos. rewrite elem_of_proposals, elem_of_featherWrites.
  unfold candidateFor. split.
  - intros (x & y & dx & dy & a' & Hs & Hdx & Hdy & _ & _ & Hle%sqrt_le_true & Heq & Hc).
    pose proof Hs as (Hx & Hy & _).
    apply idx_inj in Heq as [-> ->]; [|lia..].
    exists x, y. unfold distSq.
    replace (x + dx - x) with dx by lia. replace (y + dy - y) with dy by lia.
    split_and!; [done|lia|done].
  - intros (sx & sy & Hs & Hd & ->). unfold distSq in *.
    exists sx, sy, (px - sx), (py - sy), a.
    replace (sx + (px - sx)) with px by lia. replace (sy + (py - sy)) with py by lia.
    pose proof (square_le_bound (px - sx) (py - sy) featherRadius ltac:(lia) Hd).
    pose proof (square_le_bound (py - sy) (px - sx) featherRadius ltac:(lia) ltac:(lia)).
    split_and!; try done; try lia. apply sqrt_le_true. lia.
Qed.

(** The feathered alpha of a pixel of positive raw alpha. *)
Lemma feather_minimumOf w h featherRadius alphaChannel px py a :
  0 < featherRadius → inside w h px py →
  nthZ alphaChannel (idx w px py) = Some a → 0 < a →
  ∃ v, nthZ (feather w h featherRadius alphaChannel) (idx w px py) = Some v ∧
       minimumOf a (candidateFor w h featherRadius alphaChannel px py) v.
Proof.
  intros HR Hin Ha Hpos. rewrite nthZ_feather, Ha by done. simpl.
  eexists. split; [done|]. split_and!.
  - apply foldl_min_le.
  - intros c Hc. by eapply foldl_min_le_elem, proposals_candidateFor.
  - destruct (foldl_min_attained a
      (proposals (idx w px py) (featherWrites w h featherRadius alphaChannel)))
      as [Heq|Hc]; [by left|right].
    by eapply proposals_candidateFor.
Qed.

(** Outward monotonicity, where it holds. *)
Lemma feather_outward w h featherRadius alphaChannel px py qx qy ap aq vp vq :
  1 ≤ featherRadius ≤ 5 →
  inside w h px py → inside w h qx qy →
  nthZ alphaChannel (idx w px py) = Some ap →
  nthZ alphaChannel (idx w qx qy) = Some aq → 0 < aq ≤ ap →
  outwardOf w h featherRadius alphaChannel px py qx qy →
  nthZ (feather w h featherRadius alphaChannel) (idx w px py) = Some vp →
  nthZ (feather w h featherRadius alphaChannel) (idx w qx qy) = Some vq →
  vq ≤ vp.
Proof.
  intros HR Hinp Hinq Hap Haq Hle Hout Hvp Hvq.
  destruct (feather_minimumOf w h featherRadius alphaChannel px py ap)
    as (v & Hv & _ & _ & Hatt); [lia|done|done|lia|].
  rewrite Hvp in Hv. injection Hv as <-.
  destruct (feather_minimumOf w h featherRadius alphaChannel qx qy aq)
    as (v & Hv & Hleq & Hall & _); [lia|done|done|lia|].
  rewrite Hvq in Hv. injection Hv as <-.
  destruct Hatt as [->|(sx & sy & Hs & Hd & ->)]; [lia|].
  destruct (Hout sx sy Hs Hd) as [Hd1 Hd2].
  trans (fadeAlpha featherRadius (distSq sx sy qx qy)).
  - apply Hall. by exists sx, sy.
  - apply fadeAlpha_antitone; [done| |done].
    split; [apply distSq_nonneg|done].
Qed.

Lemma feather_far w h featherRadius alphaChannel px py :
  0 < featherRadius → inside w h px py →
  (∀ sx sy, zeroSource w h featherRadius alphaChannel sx sy →
            featherRadius * featherRadius < distSq sx sy px py) →
  nthZ (feather w h featherRadius alphaChannel) (idx w px py) =
  nthZ alphaChannel (idx w px py).
Proof.
  intros HR [Hpx Hpy] Hfar. rewrite nthZ_feather by done.
  replace (proposals _ _) with (@nil Z); [by destruct (nthZ alphaChannel _)|].
  symmetry. apply elem_of_nil_inv. intros c Hc%elem_of_proposals.
  apply elem_of_featherWrites in Hc
    as (x & y & dx & dy & a & Hs & Hdx & Hdy & _ & _ & Hle%sqrt_le_true & Heq & _).
  pose proof Hs as (Hx & Hy & _).
  apply idx_inj in Heq as [-> ->]; [|lia..].
  specialize (Hfar x y Hs). unfold distSq in Hfar.
  replace (x + dx - x) with dx in Hfar by lia.
  replace (y + dy - y) with dy in Hfar by lia. lia.
Qed.

(** C3, amended. With a radius [R > 0], for every raw mask:
    - a pixel whose raw alpha [a] is not positive keeps it (a transparent
      pixel stays transparent); a pixel of raw alpha [a > 0] is feathered to
      exactly the minimum of [a] and of the candidates
      [floor(255 * (1 - d / R))] of all the sources within distance [R] of
      it, [d] being its distance to the source: the feathered value is at most
      [a], at most every such candidate, and it is [a] or one of them;
    - for the radii of the slider the candidate does not increase with the
      distance;
    - for the radii of the slider the feathered values do not increase
      outward in this sense: if the raw alpha of [q] is positive and at most
      that of [p], and every source within [R] of [p] is within [R] of [q] and
      at least as far from [q] as from [p] (in particular when one source
      alone is in range of both, [q] is the farther from it and both start
      from the same raw alpha), then the feathered alpha of [q] is at most
      that of [p];
    - a pixel farther than [R] from every source keeps its raw alpha. *)
Theorem feather_minimum_of_candidates (w h featherRadius : Z) (alphaChannel : list Z) :
  0 < featherRadius →
  (∀ px py a,
     inside w h px py → nthZ alphaChannel (idx w px py) = Some a →
     ∃ v, nthZ (feather w h featherRadius alphaChannel) (idx w px py) = Some v ∧
          (a ≤ 0 → v = a) ∧
          (0 < a → minimumOf a (candidateFor w h featherRadius alphaChannel px py) v)) ∧
  (featherRadius ≤ 5 → ∀ d d', 0 ≤ d ≤ d' → d' ≤ featherRadius * featherRadius →
     fadeAlpha featherRadius d' ≤ fadeAlpha featherRadius d) ∧
  (featherRadius ≤ 5 → ∀ px py qx qy ap aq vp vq,
     inside w h px py → inside w h qx qy →
     nthZ alphaChannel (idx w px py) = Some ap →
     nthZ alphaChannel (idx w qx qy) = Some aq → 0 < aq ≤ ap →
     outwardOf w h featherRadius alphaChannel px py qx qy →
     nthZ (feather w h featherRadius alphaChannel) (idx w px py) = Some vp →
     nthZ (feather w h featherRadius alphaChannel) (idx w qx qy) = Some vq →
     vq ≤ vp) ∧
  (∀ px py,
     inside w h px py →
     (∀ sx sy, zeroSource w h featherRadius alphaChannel sx sy →
               featherRadius * featherRadius < distSq sx sy px py) →
     nthZ (feather w h featherRadius alphaChannel) (idx w px py) =
     nthZ alphaChannel (idx w px py)).
Proof.
  intros HR. split_and!.
  - intros px py a Hin Ha. destruct (Z.le_gt_cases a 0) as [Hle|Hpos].
    + exists a. split_and!; [|done|lia].
      rewrite nthZ_feather, Ha by done. simpl.
      by rewrite (proposals_not_positive _ _ _ _ _ a).
    + destruct (feather_minimumOf w h featherRadius alphaChannel px py a)
        as (v & Hv & Hmin); [done..|].
      exists v. split_and!; [done|lia|done].
  - intros HR5 d d' Hd Hd'. apply fadeAlpha_antitone; lia.
  - intros HR5 px py qx qy ap aq vp vq. apply feather_outward. lia.
  - intros px py. by apply feather_far.
Qed.

(** ** The values of the mask *)

Lemma nthZ_replicate_inv {A} (n : nat) (v a : A) i :
  nthZ (replicate n v) i = Some a → a = v.
Proof.
  unfold nthZ. case_bool_decide; [|done]. by intros [-> _]%lookup_replicate.
Qed.

Lemma rawMask_values img s i v :
  nthZ (rawMask img s) i = Some v → v = 0 ∨ v = 76 ∨ v = 255.
Proof.
  unfold rawMask. rewrite classify_writes.
  apply (writeAll_values (λ v, v = 0 ∨ v = 76 ∨ v = 255)).
  - intros j a ->%nthZ_replicate_inv. auto.
  - intros w (x & y & _ & _ & ->)%elem_of_classifyWrites. simpl.
    unfold classifyPixel. rewrite translucent_76.
    destruct (default false _); simpl; auto.
Qed.

Lemma finalMask_byte img s i v :
  feathering s ≤ 5 → nthZ (finalMask img s) i = Some v → 0 ≤ v ≤ 255.
Proof.
  intros HR. unfold finalMask. apply feather_byte; [done|].
  intros j a Ha%rawMask_values. lia.
Qed.

(** C10. The raw mask the classifier produces holds only the values 0, 76
    and 255, and the mask stays within [0, 255] through feathering (for a
    radius of the slider, at most 5), so it is a mask of bytes throughout. *)
Theorem mask_values (img : ImageData) (s : ProcessingSettings) :
  (∀ i v, nthZ (rawMask img s) i = Some v → v = 0 ∨ v = 76 ∨ v = 255) ∧
  (feathering s ≤ 5 →
   ∀ i v, nthZ (finalMask img s) i = Some v → 0 ≤ v ≤ 255).
Proof.
  split; [apply rawMask_values|].
  intros HR i v. by apply finalMask_byte.
Qed.

(** ** The background sampler *)

Lemma elem_of_stride5 n x : x ∈ stride5 n → 0 ≤ x < n.
Proof.
  unfold stride5. intros (k & Hx & Hk%elem_of_seqZ)%list_elem_of_fmap. subst x.
  pose proof (Z.mul_div_le (n + 4) 5 ltac:(lia)). lia.
Qed.

Lemma stride5_first n : 0 < n → 0 ∈ stride5 n.
Proof.
  intros Hn. unfold stride5. apply list_elem_of_fmap. exists 0. split; [done|].
  apply elem_of_seqZ. assert (1 ≤ (n + 4) `div` 5); [|lia].
  apply Z.div_le_lower_bound; lia.
Qed.

(** Every sampled position is a pixel of the image, on its border. *)
Lemma samplePixels_border w h p :
  0 < w → 0 < h → p ∈ samplePixels w h →
  inside w h p.1 p.2 ∧ onBorder w h p.1 p.2.
Proof.
  intros Hw Hh. unfold samplePixels, inside, onBorder.
  intros [Hp|Hp]%elem_of_app; apply list_elem_of_bind in Hp as (v & Hp & Hv%elem_of_stride5);
    apply elem_of_cons in Hp as [-> | ->%list_elem_of_singleton]; simpl; lia.
Qed.

Lemma samplePixels_nonempty w h : 0 < w → samplePixels w h ≠ [].
Proof.
  intros Hw Hnil. assert ((0, 0) ∈ samplePixels w h) as Hin.
  - unfold samplePixels. apply elem_of_app. left. apply list_elem_of_bind.
    exists 0. split; [apply list_elem_of_here|by apply stride5_first].
  - rewrite Hnil in Hin. by apply elem_of_nil in Hin.
Qed.

Lemma colorDistance_lt_refl c t : 0 < t → colorDistance_lt c c t = true.
Proof.
  intros Ht. unfold colorDistance_lt, colorDistanceSq, sqrt_lt.
  rewrite !Z.sub_diag. apply andb_true_iff. split; [lia|]. apply Z.ltb_lt. nia.
Qed.


Lemma insertByCount_perm s l : insertByCount s l ≡ₚ s :: l.
Proof.
  induction l as [|s' l IH]; [done|]. simpl.
  destruct (count s <? count s'); [|done].
  rewrite IH. apply Permutation_swap.
Qed.

Lemma sortByCount_perm l : sortByCount l ≡ₚ l.
Proof.
  induction l as [|s l IH]; [done|].
  unfold sortByCount in *. cbn [foldr]. by rewrite insertByCount_perm, IH.
Qed.


Lemma insertByCount_sorted s l :
  StronglySorted byCountDesc l → StronglySorted byCountDesc (insertByCount s l).
Proof.
  induction 1 as [|s' l Hl IH Hs']; simpl; [by repeat constructor|].
  destruct (Z.ltb_spec (count s) (count s')).
  - constructor; [done|]. rewrite insertByCount_perm.
    constructor; [unfold byCountDesc; lia|done].
  - constructor; [by constructor|].
    constructor; [unfold byCountDesc; lia|].
    eapply Forall_impl; [exact Hs'|]. unfold byCountDesc. intros; lia.
Qed.

Lemma sortByCount_sorted l : StronglySorted byCountDesc (sortByCount l).
Proof.
  induction l as [|s l IH]; [constructor|].
  unfold sortByCount in *. cbn [foldr]. by apply insertByCount_sorted.
Qed.

(** The sort is stable: the samples of any one count keep their order. *)
Lemma insertByCount_stable n s l :
  filter (λ s', count s' = n) (insertByCount s l) =
  filter (λ s', count s' = n) (s :: l).
Proof.
  induction l as [|s' l IH]; [done|]. simpl.
  destruct (Z.ltb_spec (count s) (count s')); [|done].
  rewrite (filter_cons _ s'), IH, !filter_cons.
  destruct (decide (count s' = n)), (decide (count s = n)); try done. lia.
Qed.

Lemma sortByCount_stable n l :
  filter (λ s, count s = n) (sortByCount l) = filter (λ s, count s = n) l.
Proof.
  induction l as [|s l IH]; [done|].
  unfold sortByCount in *. cbn [foldr].
  by rewrite insertByCount_stable, !filter_cons, IH.
Qed.


(** C8. The pipeline is a function of the image and the settings alone, so
    two runs on the same image with the same settings give the same result
    and the same palette; and the palette is the first three colours of the
    clusters sorted by descending count, clusters of equal count staying in
    the order in which they were first sampled. *)
Theorem palette_deterministic_stable (img img' : ImageData) (s s' : ProcessingSettings) :
  img = img' → s = s' →
  removeBackground img s = removeBackground img' s' ∧
  getBackgroundColors img = getBackgroundColors img' ∧
  ∃ sorted,
    getBackgroundColors img = rgb <$> take 3 sorted ∧
    sorted ≡ₚ sampleColors img ∧
    StronglySorted byCountDesc sorted ∧
    ∀ n, filter (λ c, count c = n) sorted = filter (λ c, count c = n) (sampleColors img).
Proof.
  intros <- <-. split_and!; [done..|].
  exists (sortByCount (sampleColors img)). split_and!.
  - done.
  - apply sortByCount_perm.
  - apply sortByCount_sorted.
  - intros n. apply sortByCount_stable.
Qed.

(** ** Writing the mask back *)

Lemma applyAlpha_writes d alphaChannel :
  applyAlpha d alphaChannel = writeAll (alphaWrites alphaChannel) d.
Proof. unfold applyAlpha, alphaWrites, writeAll. by rewrite foldl_fmap. Qed.

Lemma elem_of_alphaWrites alphaChannel w :
  w ∈ alphaWrites alphaChannel ↔
  ∃ i, 0 ≤ i < Z.of_nat (length alphaChannel) ∧
       w = (i * 4 + 3, clamp8 (default 0 (nthZ alphaChannel i))).
Proof.
  unfold alphaWrites. rewrite list_elem_of_fmap. split.
  - intros (i & -> & Hi%elem_of_seqZ). exists i. split; [lia|done].
  - intros (i & Hi & ->). exists i. split; [done|]. apply elem_of_seqZ. lia.
Qed.

Lemma length_finalMask img s :
  length (finalMask img s) = Z.to_nat (width img * height img).
Proof. unfold finalMask, rawMask. by rewrite length_feather, length_classify. Qed.

Lemma clamp8_byte v : 0 ≤ v ≤ 255 → clamp8 v = v.
Proof. unfold clamp8. lia. Qed.

(** The colour bytes are not written. *)
Lemma applyAlpha_rgb d alphaChannel i c :
  0 ≤ c < 3 → nthZ (applyAlpha d alphaChannel) (i * 4 + c) = nthZ d (i * 4 + c).
Proof.
  intros Hc. rewrite applyAlpha_writes. apply writeAll_other.
  intros w (j & _ & ->)%elem_of_alphaWrites. simpl. lia.
Qed.

(** C7. For every image and settings of the slider ranges, the output has
    the width and the height of the input and the same R, G and B at every
    pixel; only the alpha byte changes, to the value of the final mask. *)
Theorem removeBackground_frame (img : ImageData) (s : ProcessingSettings) :
  wf_image img → in_range s →
  width (removeBackground img s) = width img ∧
  height (removeBackground img s) = height img ∧
  length (data (removeBackground img s)) = length (data img) ∧
  ∀ x y, inside (width img) (height img) x y →
    pixelAt (removeBackground img s) x y = pixelAt img x y ∧
    nthZ (data (removeBackground img s)) (idx (width img) x y * 4 + 3) =
    nthZ (finalMask img s) (idx (width img) x y).
Proof.
  intros (Hw & Hh & Hlen & _) (_ & _ & HR). split_and!; [done..| |].
  - unfold removeBackground. simpl.
    by rewrite applyAlpha_writes, length_writeAll.
  - intros x y Hin. pose proof (idx_in_range _ _ _ _ Hin) as Hi.
    unfold removeBackground, pixelAt, byteAt. simpl. split.
    + rewrite <- (Z.add_0_r (idx (width img) x y * 4)).
      rewrite <- !Z.add_assoc. simpl.
      by rewrite !applyAlpha_rgb by lia.
    + destruct (nthZ_is_Some (finalMask img s) (idx (width img) x y)) as [v Hv].
      { by rewrite length_finalMask. }
      rewrite Hv, applyAlpha_writes. apply writeAll_hit.
      * apply elem_of_alphaWrites. exists (idx (width img) x y).
        rewrite length_finalMask, Hv. simpl. split; [done|].
        rewrite clamp8_byte; [done|].
        apply finalMask_byte in Hv; [done|lia].
      * intros w (j & _ & ->)%elem_of_alphaWrites Hj. simpl in *.
        assert (j = idx (width img) x y) as -> by lia.
        rewrite Hv. simpl. rewrite clamp8_byte; [done|].
        apply finalMask_byte in Hv; [done|lia].
      * rewrite Hlen. lia.
Qed.

(** ** The end-to-end scenario *)

(** The image of the scenario is the one described: 10x10, a blue ring one
    pixel wide around a red interior, opaque everywhere. *)
Lemma ringImage_described :
  wf_image ringImage ∧
  ∀ x y, inside 10 10 x y →
    pixelAt ringImage x y = (if ringPixel x y then blue else red) ∧
    (ringPixel x y = true ↔ onBorder 10 10 x y) ∧
    byteAt (data ringImage) (idx 10 x y * 4 + 3) = 255.
Proof.
  split.
  - split_and!; [done..|]. apply Forall_forall. intros v Hv.
    assert (v = 0 ∨ v = 255) as [-> | ->]; [|lia..].
    revert Hv. unfold ringImage, data.
    intros (y & (x & Hv & _)%list_elem_of_bind & _)%list_elem_of_bind.
    destruct (ringPixel x y);
      repeat (apply elem_of_cons in Hv as [->|Hv]; [auto|]); by apply elem_of_nil in Hv.
  - intros x y Hin.
    pose proof (inside_forallb 10 10 (λ x y,
      bool_decide (pixelAt ringImage x y = (if ringPixel x y then blue else red)) &&
      bool_decide (byteAt (data ringImage) (idx 10 x y * 4 + 3) = 255))) as Hall.
    apply Hall in Hin as Hxy; [|vm_compute; reflexivity].
    apply andb_prop in Hxy as [Hpx%bool_decide_eq_true Ha%bool_decide_eq_true].
    split_and!; [done| |done].
    unfold ringPixel, onBorder. rewrite !orb_true_iff. lia.
Qed.

(** C1. On the 10x10 image with a blue ring and a red interior, with
    tolerance 30, edge sensitivity 1 (threshold 10) and no feathering, the
    output alpha is 0 at every ring pixel that the Sobel detector does not flag
    (it flags none of them) and 255 at every interior pixel. *)
Theorem ring_scenario (x y : Z) :
  inside 10 10 x y →
  let out := removeBackground ringImage ringSettings in
  let edges := detectEdges ringImage (edgeDetection ringSettings * 10) in
  let alpha := nthZ (data out) (idx 10 x y * 4 + 3) in
  (ringPixel x y = true → nthZ edges (idx 10 x y) ≠ Some true → alpha = Some 0) ∧
  (ringPixel x y = true → nthZ edges (idx 10 x y) = Some false) ∧
  (ringPixel x y = false → alpha = Some 255).
Proof.
  intros Hin out edges alpha.
  pose proof (inside_forallb 10 10 ringExpected) as Hall.
  apply Hall in Hin as Hxy; [|vm_compute; reflexivity].
  unfold ringExpected in Hxy. fold out edges alpha in Hxy.
  destruct (ringPixel x y) eqn:Hring.
  - assert (nthZ edges (idx 10 x y) = Some false) as Hedge.
    { unfold edges. rewrite nthZ_detectEdges by done.
      apply (proj2 ringImage_described) in Hin as (_ & Hr & _).
      apply Hr in Hring. unfold onBorder in Hring.
      rewrite bool_decide_false; [done|]. simpl. lia. }
    split; [|split].
    + intros _ Hne.
      apply orb_prop in Hxy as [He%bool_decide_eq_true|Ha%bool_decide_eq_true].
      * rewrite Hedge in He. discriminate He.
      * exact Ha.
    + intros _. exact Hedge.
    + intros Hf. discriminate Hf.
  - split; [|split].
    + intros Hf. discriminate Hf.
    + intros Hf. discriminate Hf.
    + intros _. apply bool_decide_eq_true in Hxy. exact Hxy.
Qed.

(** ** Instances on concrete inputs *)

Lemma flatImage_uniform x y :
  inside (width flatImage) (height flatImage) x y →
  pixelAt flatImage x y = {| r := 90; g := 120; b := 200 |}.
Proof.
  intros Hin.
  apply (inside_forallb 4 4 (λ x y,
    bool_decide (pixelAt flatImage x y = {| r := 90; g := 120; b := 200 |}))) in Hin;
    [by apply bool_decide_eq_true in Hin|vm_compute; reflexivity].
Qed.


Lemma ring_scenario_witness :
  inside 10 10 0 0 ∧
  nthZ (data (removeBackground ringImage ringSettings)) (idx 10 0 0 * 4 + 3) = Some 0.
Proof.
  assert (inside 10 10 0 0) as Hin by (unfold inside; lia).
  split; [exact Hin|].
  apply (ring_scenario 0 0 Hin); [reflexivity|].
  vm_compute. discriminate.
Defined.

Lemma classify_alpha_witness :
  inside (width ringImage) (height ringImage) 0 0 ∧
  minDistanceBelow (pixelAt ringImage 0 0) [blue] 30 ∧
  nthZ (classify ringImage [blue] (detectEdges ringImage 10) 30) (idx (width ringImage) 0 0)
    = Some 0.
Proof.
  assert (inside (width ringImage) (height ringImage) 0 0) as Hin
    by (unfold inside; simpl; lia).
  assert (minDistanceBelow (pixelAt ringImage 0 0) [blue] 30) as Hmin
    by (apply minDistance_lt_real; vm_compute; reflexivity).
  split_and!; [exact Hin|exact Hmin|].
  apply (classify_alpha ringImage [blue] (detectEdges ringImage 10) 30 0 0 Hin);
    [exact Hmin|vm_compute; reflexivity].
Defined.

Lemma dotImage_single_source sx sy :
  zeroSource 7 7 2 (rawMask dotImage featherSettings) sx sy → sx = 3 ∧ sy = 3.
Proof.
  intros (Hx & Hy & Hz).
  assert (sx = 2 ∨ sx = 3 ∨ sx = 4) as [-> | [-> | ->]] by lia;
    (assert (sy = 2 ∨ sy = 3 ∨ sy = 4) as [-> | [-> | ->]] by lia);
    vm_compute in Hz; first [done | discriminate Hz].
Qed.

Lemma feather_minimum_of_candidates_witness :
  0 < 2 ∧ 2 ≤ 5 ∧ inside 7 7 3 2 ∧ inside 7 7 2 2 ∧
  nthZ (rawMask dotImage featherSettings) (idx 7 3 2) = Some 255 ∧
  nthZ (rawMask dotImage featherSettings) (idx 7 2 2) = Some 255 ∧
  0 < 255 ≤ 255 ∧
  outwardOf 7 7 2 (rawMask dotImage featherSettings) 3 2 2 2 ∧
  nthZ (feather 7 7 2 (rawMask dotImage featherSettings)) (idx 7 3 2) = Some 127 ∧
  nthZ (feather 7 7 2 (rawMask dotImage featherSettings)) (idx 7 2 2) = Some 74 ∧
  74 ≤ 127 ∧
  ∃ v, nthZ (feather 7 7 2 (rawMask dotImage featherSettings)) (idx 7 3 2) = Some v ∧
       (255 ≤ 0 → v = 255) ∧
       (0 < 255 → minimumOf 255 (candidateFor 7 7 2 (rawMask dotImage featherSettings) 3 2) v).
Proof.
  assert (0 < 2) as HR by lia.
  assert (2 ≤ 5) as HR5 by lia.
  assert (inside 7 7 3 2) as Hp by (unfold inside; lia).
  assert (inside 7 7 2 2) as Hq by (unfold inside; lia).
  assert (nthZ (rawMask dotImage featherSettings) (idx 7 3 2) = Some 255) as Hap
    by (vm_compute; reflexivity).
  assert (nthZ (rawMask dotImage featherSettings) (idx 7 2 2) = Some 255) as Haq
    by (vm_compute; reflexivity).
  assert (0 < 255 ≤ 255) as Hle by lia.
  assert (outwardOf 7 7 2 (rawMask dotImage featherSettings) 3 2 2 2) as Hout.
  { intros sx sy [-> ->]%dotImage_single_source _. vm_compute. split; discriminate. }
  assert (nthZ (feather 7 7 2 (rawMask dotImage featherSettings)) (idx 7 3 2) = Some 127)
    as Hvp by (vm_compute; reflexivity).
  assert (nthZ (feather 7 7 2 (rawMask dotImage featherSettings)) (idx 7 2 2) = Some 74)
    as Hvq by (vm_compute; reflexivity).
  destruct (feather_minimum_of_candidates 7 7 2 (rawMask dotImage featherSettings) HR)
    as (Hmin & _ & Hmono & _).
  split; [exact HR|]. split; [exact HR5|]. split; [exact Hp|]. split; [exact Hq|].
  split; [exact Hap|]. split; [exact Haq|]. split; [exact Hle|]. split; [exact Hout|].
  split; [exact Hvp|]. split; [exact Hvq|]. split.
  - exact (Hmono HR5 3 2 2 2 255 255 127 74 Hp Hq Hap Haq Hle Hout Hvp Hvq).
  - exact (Hmin 3 2 255 Hp Hap).
Defined.


Lemma detectEdges_witness :
  nthZ (detectEdges flatImage 10) (idx (width flatImage) 1 1) = Some false ∧
  nthZ (detectEdges ringImage 10) (idx (width ringImage) 0 3) = Some false.
Proof.
  split.
  - apply (proj1 (detectEdges_uniform_and_border flatImage 10)
             {| r := 90; g := 120; b := 200 |} flatImage_uniform).
    + lia.
    + unfold inside. simpl. lia.
  - apply (proj2 (detectEdges_uniform_and_border ringImage 10)).
    + unfold inside. simpl. lia.
    + left. reflexivity.
Defined.

Lemma removeBackground_frame_witness :
  wf_image ringImage ∧ in_range featherSettings ∧
  width (removeBackground ringImage featherSettings) = 10 ∧
  pixelAt (removeBackground ringImage featherSettings) 3 3 = red ∧
  nthZ (data (removeBackground ringImage featherSettings)) (idx 10 3 3 * 4 + 3) =
  nthZ (finalMask ringImage featherSettings) (idx 10 3 3).
Proof.
  pose proof (proj1 ringImage_described) as Hwf.
  assert (in_range featherSettings) as Hs by (unfold in_range; simpl; lia).
  destruct (removeBackground_frame ringImage featherSettings Hwf Hs) as (Hw & _ & _ & Hpx).
  destruct (Hpx 3 3) as [Hrgb Ha]; [unfold inside; simpl; lia|].
  split_and!; [exact Hwf|exact Hs|exact Hw| |exact Ha].
  rewrite Hrgb. vm_compute. reflexivity.
Defined.

Lemma palette_deterministic_stable_witness :
  removeBackground ringImage ringSettings = removeBackground ringImage ringSettings ∧
  getBackgroundColors ringImage = getBackgroundColors ringImage ∧
  ∃ sorted,
    getBackgroundColors ringImage = rgb <$> take 3 sorted ∧
    sorted ≡ₚ sampleColors ringImage ∧
    StronglySorted byCountDesc sorted ∧
    ∀ n, filter (λ c, count c = n) sorted = filter (λ c, count c = n) (sampleColors ringImage).
Proof.
  exact (palette_deterministic_stable ringImage ringImage ringSettings ringSettings
           eq_refl eq_refl).
Defined.

Lemma feather_le_raw_witness :
  nthZ twoHoles (idx 8 3 2) = Some 255 ∧
  ∃ v, nthZ (feather 8 5 2 twoHoles) (idx 8 3 2) = Some v ∧ v ≤ 255 ∧ (255 = 0 → v = 0).
Proof.
  assert (nthZ twoHoles (idx 8 3 2) = Some 255) as Ha by (vm_compute; reflexivity).
  split; [exact Ha|]. exact (feather_le_raw 8 5 2 twoHoles (idx 8 3 2) 255 Ha).
Defined.

Lemma mask_values_witness :
  feathering featherSettings ≤ 5 ∧
  nthZ (finalMask ringImage featherSettings) (idx 10 1 1) = Some 255 ∧
  0 ≤ 255 ≤ 255.
Proof.
  assert (feathering featherSettings ≤ 5) as HR by (simpl; lia).
  assert (nthZ (finalMask ringImage featherSettings) (idx 10 1 1) = Some 255) as Hv
    by (vm_compute; reflexivity).
  split_and!; [exact HR|exact Hv|..];
    apply (proj2 (mask_values ringImage featherSettings) HR (idx 10 1 1) 255 Hv).
Defined.

(** ** The integer comparisons and binary64

    The square-root comparisons of the pipeline, evaluated in binary64, have
    the value of their integer forms: for the clustering threshold 30, on
    every radicand bytes can produce; for every tolerance and every edge
    threshold of the sliders, on every radicand up to [10300], a range that
    holds [t * t - 1], [t * t] and [t * t + 1] for each bound [t], where alone
    rounding could change the outcome (above it the correctly rounded root,
    which is monotone, is at least [t + 1]); and for every feathering radius, on
    every radicand the offsets can produce. *)

Lemma forall_range_nat f n k i :
  forall_range f n k = true → k ≤ i < k + Z.of_nat n → f i = true.
Proof.
  revert k. induction n as [|n IH]; intros k Hall Hi; [lia|].
  cbn [forall_range] in Hall. apply andb_prop in Hall as [Hk Hall].
  destruct (decide (i = k)) as [->|Hne]; [done|].
  apply (IH (Z.succ k)); [done|lia].
Qed.

Lemma forall_range_spec f m k i :
  forall_range f (Z.to_nat m) k = true → k ≤ i < k + m → f i = true.
Proof. intros Hall Hi. apply (forall_range_nat _ _ _ i) in Hall; [done|lia]. Qed.

(** X19. The clustering test [colorDistance(...) < 30], evaluated in binary64
    as [Math.sqrt(n) < 30], holds exactly when [n < 900], for every squared
    distance [n] between byte triples (at most [3 * 255^2]). *)
Theorem sqrt_lt_30_binary64 n :
  0 ≤ n ≤ 195075 → sqrt_ltF n 30 = sqrt_lt n 30.
Proof.
  intros Hn.
  assert (forall_range (λ n, Bool.eqb (sqrt_ltF n 30) (sqrt_lt n 30))
            (Z.to_nat 195076) 0 = true) as Hall by (vm_compute; reflexivity).
  apply (forall_range_spec _ _ _ n) in Hall; [|lia]. by apply eqb_prop.
Qed.

(** [colorDistance(...) < colorTolerance]. *)
Lemma sqrt_lt_binary64 n t :
  0 ≤ n ≤ 10300 → 10 ≤ t ≤ 100 → sqrt_ltF n t = sqrt_lt n t.
Proof.
  intros Hn Ht.
  assert (forall_range (λ t, forall_range (λ n,
            Bool.eqb (sqrt_ltF n t) (sqrt_lt n t)) (Z.to_nat 10301) 0)
            (Z.to_nat 91) 10 = true) as Hall by (vm_compute; reflexivity).
  apply (forall_range_spec _ _ _ t) in Hall; [|lia].
  apply (forall_range_spec _ _ _ n) in Hall; [|lia]. by apply eqb_prop.
Qed.

(** [magnitude > edgeDetection * 10]. *)
Lemma sqrt_gt_binary64 n e :
  0 ≤ n ≤ 10300 → 1 ≤ e ≤ 10 → sqrt_gtF n (e * 10) = sqrt_gt n (e * 10).
Proof.
  intros Hn He.
  assert (forall_range (λ e, forall_range (λ n,
            Bool.eqb (sqrt_gtF n (e * 10)) (sqrt_gt n (e * 10))) (Z.to_nat 10301) 0)
            (Z.to_nat 10) 1 = true) as Hall by (vm_compute; reflexivity).
  apply (forall_range_spec _ _ _ e) in Hall; [|lia].
  apply (forall_range_spec _ _ _ n) in Hall; [|lia]. by apply eqb_prop.
Qed.

(** X20. The feathering test [distance <= featherRadius], evaluated in
    binary64 as [Math.sqrt(n) <= R], holds exactly when [n <= R * R], for every
    radius of the slider and every [n = dx * dx + dy * dy] the offsets produce
    ([dx] and [dy] are at most the radius in absolute value). *)
Theorem sqrt_le_binary64 n R :
  0 ≤ n ≤ 50 → 0 ≤ R ≤ 5 → sqrt_leF n R = sqrt_le n R.
Proof.
  intros Hn HR.
  assert (forall_range (λ R, forall_range (λ n,
            Bool.eqb (sqrt_leF n R) (sqrt_le n R)) (Z.to_nat 51) 0)
            (Z.to_nat 6) 0 = true) as Hall by (vm_compute; reflexivity).
  apply (forall_range_spec _ _ _ R) in Hall; [|lia].
  apply (forall_range_spec _ _ _ n) in Hall; [|lia]. by apply eqb_prop.
Qed.

Lemma sqrt_lt_30_binary64_witness :
  sqrt_ltF 899 30 = sqrt_lt 899 30 ∧ sqrt_ltF 900 30 = sqrt_lt 900 30.
Proof. split; apply sqrt_lt_30_binary64; lia. Defined.

Lemma sqrt_le_binary64_witness : sqrt_leF 25 5 = sqrt_le 25 5.
Proof. apply sqrt_le_binary64; lia. Defined.

(** * Further properties of the smart pipeline *)

(** ** colorDistance in binary64, on bytes *)

Lemma colorDistanceSq_sym r1 g1 b1 r2 g2 b2 :
  colorDistanceSq r1 g1 b1 r2 g2 b2 = colorDistanceSq r2 g2 b2 r1 g1 b1.
Proof. unfold colorDistanceSq. lia. Qed.

Lemma colorDistanceSq_zero r1 g1 b1 r2 g2 b2 :
  colorDistanceSq r1 g1 b1 r2 g2 b2 = 0 ↔ r1 = r2 ∧ g1 = g2 ∧ b1 = b2.
Proof. unfold colorDistanceSq. split; [nia|]. intros (-> & -> & ->). lia. Qed.

Lemma colorDistance_lt_sym c1 c2 t : colorDistance_lt c1 c2 t = colorDistance_lt c2 c1 t.
Proof. unfold colorDistance_lt. by rewrite colorDistanceSq_sym. Qed.

Lemma colorDistance_checked n :
  0 ≤ n ≤ 195075 → colorDistance_check n = true.
Proof.
  intros Hn.
  assert (forall_range colorDistance_check (Z.to_nat 195076) 0 = true) as Hall
    by (vm_compute; reflexivity).
  apply (forall_range_spec _ _ _ n) in Hall; [done|lia].
Qed.

Lemma colorDistanceSq_bytes r1 g1 b1 r2 g2 b2 :
  0 ≤ r1 ≤ 255 → 0 ≤ g1 ≤ 255 → 0 ≤ b1 ≤ 255 →
  0 ≤ r2 ≤ 255 → 0 ≤ g2 ≤ 255 → 0 ≤ b2 ≤ 255 →
  0 ≤ colorDistanceSq r1 g1 b1 r2 g2 b2 ≤ 195075.
Proof.
  intros Hr1 Hg1 Hb1 Hr2 Hg2 Hb2. unfold colorDistanceSq.
  assert (∀ u v, 0 ≤ u ≤ 255 → 0 ≤ v ≤ 255 → 0 ≤ (u - v) ^ 2 ≤ 65025) as Hsq
    by (intros u v Hu Hv; nia).
  pose proof (Hsq r1 r2 Hr1 Hr2). pose proof (Hsq g1 g2 Hg1 Hg2).
  pose proof (Hsq b1 b2 Hb1 Hb2). lia.
Qed.

(** X1. [colorDistance], the binary64 number the code computes, between two
    triples of bytes: it is symmetric in the two colours, it is 0 exactly when
    the triples are equal, it lies in [0, 442), and the clustering test
    [colorDistance(...) < 30] on it has the value of the integer test the
    sampler is modelled with. *)
Theorem colorDistance_metric (r1 g1 b1 r2 g2 b2 : Z) :
  0 ≤ r1 ≤ 255 → 0 ≤ g1 ≤ 255 → 0 ≤ b1 ≤ 255 →
  0 ≤ r2 ≤ 255 → 0 ≤ g2 ≤ 255 → 0 ≤ b2 ≤ 255 →
  Binary64.colorDistance r1 g1 b1 r2 g2 b2 = Binary64.colorDistance r2 g2 b2 r1 g1 b1 ∧
  (PrimFloat.eqb (Binary64.colorDistance r1 g1 b1 r2 g2 b2) PrimFloat.zero = true ↔
     r1 = r2 ∧ g1 = g2 ∧ b1 = b2) ∧
  PrimFloat.leb PrimFloat.zero (Binary64.colorDistance r1 g1 b1 r2 g2 b2) = true ∧
  PrimFloat.ltb (Binary64.colorDistance r1 g1 b1 r2 g2 b2) (float_of_Z 442) = true ∧
  PrimFloat.ltb (Binary64.colorDistance r1 g1 b1 r2 g2 b2) (float_of_Z 30) =
    colorDistance_lt (mkColor r1 g1 b1) (mkColor r2 g2 b2) 30.
Proof.
  intros Hr1 Hg1 Hb1 Hr2 Hg2 Hb2.
  unfold Binary64.colorDistance, colorDistance_lt. cbn [r g b].
  pose proof (colorDistanceSq_bytes r1 g1 b1 r2 g2 b2 Hr1 Hg1 Hb1 Hr2 Hg2 Hb2) as Hn.
  pose proof (colorDistance_checked _ Hn) as Hc. unfold colorDistance_check in Hc.
  apply andb_prop in Hc as [[[Hz%eqb_prop H0]%andb_prop H442]%andb_prop H30%eqb_prop].
  split_and!; [|..|done|done|done].
  - by rewrite colorDistanceSq_sym.
  - rewrite Hz, Z.eqb_eq. apply colorDistanceSq_zero.
Qed.

Lemma colorDistance_metric_witness :
  Binary64.colorDistance 0 0 255 255 0 0 = Binary64.colorDistance 255 0 0 0 0 255 ∧
  (PrimFloat.eqb (Binary64.colorDistance 0 0 255 255 0 0) PrimFloat.zero = true ↔
     0 = 255 ∧ 0 = 0 ∧ 255 = 0) ∧
  PrimFloat.leb PrimFloat.zero (Binary64.colorDistance 0 0 255 255 0 0) = true ∧
  PrimFloat.ltb (Binary64.colorDistance 0 0 255 255 0 0) (float_of_Z 442) = true ∧
  PrimFloat.ltb (Binary64.colorDistance 0 0 255 255 0 0) (float_of_Z 30) =
    colorDistance_lt (mkColor 0 0 255) (mkColor 255 0 0) 30.
Proof. apply (colorDistance_metric 0 0 255 255 0 0); lia. Defined.

(** ** The clusters of the sampler *)

Lemma colorDistance_ge_real c1 c2 t :
  colorDistance_lt c1 c2 t = false ↔
  (IZR t <= colorDistance (r c1) (g c1) (b c1) (r c2) (g c2) (b c2))%R.
Proof.
  rewrite <- not_true_iff_false, colorDistance_lt_real. split.
  - apply Rnot_lt_le.
  - intros Hle Hlt. by apply (Rlt_irrefl (IZR t)), (Rle_lt_trans _ _ _ Hle).
Qed.

Lemma findSimilar_None px colors :
  findSimilar px colors = None ↔
  Forall (λ s, colorDistance_lt px (rgb s) 30 = false) colors.
Proof.
  induction colors as [|s colors IH]; simpl; [by split; [constructor|]|].
  destruct (colorDistance_lt px (rgb s) 30) eqn:Hd.
  - split; [done|]. intros [Hs _]%Forall_cons. congruence.
  - rewrite fmap_None, IH. split; [by constructor|by intros [_ ?]%Forall_cons].
Qed.

(** A found cluster: the colours stay, one count goes up by one, and the
    sample is within 30 of one of the colours. *)
Lemma findSimilar_Some px colors colors' :
  findSimilar px colors = Some colors' →
  rgb <$> colors' = rgb <$> colors ∧
  totalCount colors' = totalCount colors + 1 ∧
  (Forall (λ s, 1 ≤ count s) colors → Forall (λ s, 1 ≤ count s) colors') ∧
  ∃ s, s ∈ colors ∧ colorDistance_lt px (rgb s) 30 = true.
Proof.
  revert colors'. induction colors as [|s colors IH]; intros colors'; simpl; [done|].
  destruct (colorDistance_lt px (rgb s) 30) eqn:Hd.
  - intros [= <-]. simpl. split_and!; [done|lia| |].
    + intros [Hs Hall]%Forall_cons. constructor; [simpl; lia|done].
    + exists s. split; [apply list_elem_of_here|done].
  - destruct (findSimilar px colors) as [colors''|]; [|done]. simpl. intros [= <-].
    destruct (IH colors'' eq_refl) as (Hrgb & Hsum & Hpos & s' & Hs' & Hd').
    split_and!.
    + by rewrite !fmap_cons, Hrgb.
    + simpl. lia.
    + intros [Hs Hall]%Forall_cons. constructor; [done|by apply Hpos].
    + exists s'. split; [by apply list_elem_of_further|done].
Qed.

Lemma totalCount_app l1 l2 : totalCount (l1 ++ l2) = totalCount l1 + totalCount l2.
Proof. induction l1 as [|s l1 IH]; simpl; [done|]. rewrite IH. lia. Qed.

Lemma farApart_snoc cs c :
  farApart cs →
  Forall (λ c', colorDistance_lt c c' 30 = false) cs →
  farApart (cs ++ [c]).
Proof.
  intros Hfar Hc i j c1 c2 Hne Hi Hj.
  rewrite Forall_forall in Hc.
  assert (∀ k c', cs !! k = Some c' → colorDistance_lt c c' 30 = false) as Hc'.
  { intros k c' Hk. apply Hc. by eapply list_elem_of_lookup_2. }
  apply lookup_app_Some in Hi as [Hi|[Hil Hi]];
    apply lookup_app_Some in Hj as [Hj|[Hjl Hj]].
  - by eapply Hfar.
  - apply list_lookup_singleton_Some in Hj as [_ <-].
    apply (colorDistance_ge_real _ _ 30). rewrite colorDistance_lt_sym. by eapply Hc'.
  - apply list_lookup_singleton_Some in Hi as [_ <-].
    apply (colorDistance_ge_real _ _ 30). by eapply Hc'.
  - apply list_lookup_singleton_Some in Hi as [Hi _].
    apply list_lookup_singleton_Some in Hj as [Hj _]. lia.
Qed.

(** What one sample does to the clusters. *)
Lemma addSample_inv px colors seen :
  farApart (rgb <$> colors) →
  Forall (λ s, 1 ≤ count s) colors →
  (∀ c, c ∈ rgb <$> colors → c ∈ seen) →
  (∀ px', px' ∈ seen → ∃ c, c ∈ rgb <$> colors ∧ colorDistance_lt px' c 30 = true) →
  farApart (rgb <$> addSample colors px) ∧
  Forall (λ s, 1 ≤ count s) (addSample colors px) ∧
  (∀ c, c ∈ rgb <$> addSample colors px → c ∈ seen ++ [px]) ∧
  (∀ px', px' ∈ seen ++ [px] →
     ∃ c, c ∈ rgb <$> addSample colors px ∧ colorDistance_lt px' c 30 = true) ∧
  totalCount (addSample colors px) = totalCount colors + 1 ∧
  rgb <$> colors `prefix_of` rgb <$> addSample colors px.
Proof.
  intros Hfar Hpos Hsub Hcov. unfold addSample.
  destruct (findSimilar px colors) as [colors1|] eqn:Hfind.
  - apply findSimilar_Some in Hfind as (Hrgb & Hsum & Hpos1 & s & Hs & Hd).
    rewrite Hrgb. split_and!; [done|by apply Hpos1| | |done|done].
    + intros c Hc. apply elem_of_app. left. by apply Hsub.
    + intros px' [Hpx'| ->%list_elem_of_singleton]%elem_of_app; [by apply Hcov|].
      exists (rgb s). split; [by apply list_elem_of_fmap_2|done].
  - apply findSimilar_None in Hfind. rewrite fmap_app. split_and!.
    + apply farApart_snoc; [done|]. by apply Forall_fmap.
    + apply Forall_app. split; [done|]. by repeat constructor.
    + intros c [Hc| ->%list_elem_of_singleton]%elem_of_app; apply elem_of_app;
        [left; by apply Hsub|right; apply list_elem_of_here].
    + intros px' [Hpx'| ->%list_elem_of_singleton]%elem_of_app.
      * destruct (Hcov px' Hpx') as (c & Hc & Hd). exists c.
        split; [|done]. apply elem_of_app. by left.
      * exists px. split; [|by apply colorDistance_lt_refl].
        apply elem_of_app. right. apply list_elem_of_here.
    + rewrite totalCount_app. simpl. lia.
    + by apply prefix_app_r.
Qed.

(** What the clustering loop maintains, whatever clusters it starts from. *)
Lemma foldl_addSample_inv pxs colors seen :
  farApart (rgb <$> colors) →
  Forall (λ s, 1 ≤ count s) colors →
  (∀ c, c ∈ rgb <$> colors → c ∈ seen) →
  (∀ px, px ∈ seen → ∃ c, c ∈ rgb <$> colors ∧ colorDistance_lt px c 30 = true) →
  farApart (rgb <$> foldl addSample colors pxs) ∧
  Forall (λ s, 1 ≤ count s) (foldl addSample colors pxs) ∧
  (∀ c, c ∈ rgb <$> foldl addSample colors pxs → c ∈ seen ++ pxs) ∧
  (∀ px, px ∈ seen ++ pxs →
     ∃ c, c ∈ rgb <$> foldl addSample colors pxs ∧ colorDistance_lt px c 30 = true) ∧
  totalCount (foldl addSample colors pxs) = totalCount colors + Z.of_nat (length pxs) ∧
  rgb <$> colors `prefix_of` rgb <$> foldl addSample colors pxs.
Proof.
  revert colors seen. induction pxs as [|px pxs IH]; intros colors seen Hfar Hpos Hsub Hcov.
  { simpl. rewrite app_nil_r. split_and!; try done. lia. }
  cbn [foldl].
  assert (seen ++ px :: pxs = (seen ++ [px]) ++ pxs) as -> by by rewrite <- app_assoc.
  destruct (addSample_inv px colors seen Hfar Hpos Hsub Hcov)
    as (H1 & H2 & H3 & H4 & H5 & H6).
  destruct (IH (addSample colors px) (seen ++ [px]) H1 H2 H3 H4)
    as (G1 & G2 & G3 & G4 & G5 & G6).
  split_and!; try done.
  - rewrite G5, H5. cbn [length]. lia.
  - by etrans.
Qed.

Lemma farApart_nil : farApart [].
Proof. intros i j c1 c2 _ Hi. by rewrite lookup_nil in Hi. Qed.

Lemma length_samplePixels w h :
  Z.of_nat (length (samplePixels w h)) =
  2 * Z.max 0 ((w + 4) `div` 5) + 2 * Z.max 0 ((h + 4) `div` 5).
Proof.
  unfold samplePixels, stride5. rewrite length_app.
  assert (∀ (f : Z → list (Z * Z)) l, (∀ x, length (f x) = 2%nat) →
            length (l ≫= f) = (2 * length l)%nat) as Hbind.
  { intros f l Hf. induction l as [|x l IH]; [done|].
    rewrite bind_cons, length_app, Hf, IH. simpl. lia. }
  rewrite !Hbind by done. rewrite !length_fmap, !length_seqZ. lia.
Qed.

Lemma sampleColors_inv (img : ImageData) :
  farApart (rgb <$> sampleColors img) ∧
  (∀ c, c ∈ rgb <$> sampleColors img → c ∈ sampledColors img) ∧
  (∀ px, px ∈ sampledColors img →
     ∃ c, c ∈ rgb <$> sampleColors img ∧
          (colorDistance (r px) (g px) (b px) (r c) (g c) (b c) < 30)%R) ∧
  Forall (λ s, 1 ≤ count s) (sampleColors img) ∧
  totalCount (sampleColors img) =
    2 * Z.max 0 ((width img + 4) `div` 5) + 2 * Z.max 0 ((height img + 4) `div` 5).
Proof.
  change (sampleColors img) with (foldl addSample [] (sampledColors img)).
  destruct (foldl_addSample_inv (sampledColors img) [] [])
    as (Hfar & Hpos & Hsub & Hcov & Hsum & _).
  - apply farApart_nil.
  - constructor.
  - intros c Hc. by apply elem_of_nil in Hc.
  - intros px Hpx. by apply elem_of_nil in Hpx.
  - split_and!; try done.
    + intros px Hpx. destruct (Hcov px Hpx) as (c & Hc & Hd).
      exists c. split; [done|]. by apply (colorDistance_lt_real _ _ 30).
    + rewrite Hsum. unfold sampledColors. rewrite length_fmap, length_samplePixels.
      simpl. lia.
Qed.

(** X2. The clusters after sampling: their colours are colours of sampled
    pixels and pairwise at distance 30 or more, every sampled pixel is within
    30 of one of them, every count is at least 1, and the counts add up to the
    number of samples, [2 * ceil(width / 5) + 2 * ceil(height / 5)]. *)
Theorem sampleColors_clusters (img : ImageData) :
  farApart (rgb <$> sampleColors img) ∧
  (∀ c, c ∈ rgb <$> sampleColors img → c ∈ sampledColors img) ∧
  (∀ px, px ∈ sampledColors img →
     ∃ c, c ∈ rgb <$> sampleColors img ∧
          (colorDistance (r px) (g px) (b px) (r c) (g c) (b c) < 30)%R) ∧
  Forall (λ s, 1 ≤ count s) (sampleColors img) ∧
  totalCount (sampleColors img) =
    2 * Z.max 0 ((width img + 4) `div` 5) + 2 * Z.max 0 ((height img + 4) `div` 5).
Proof. apply sampleColors_inv. Qed.

(** ** Where the palette comes from *)

Lemma farApart_take n cs : farApart cs → farApart (take n cs).
Proof.
  intros Hfar i j c1 c2 Hne Hi Hj.
  apply lookup_take_Some in Hi as [Hi _]. apply lookup_take_Some in Hj as [Hj _].
  by eapply Hfar.
Qed.

Lemma farApart_cons c cs :
  farApart (c :: cs) ↔
  Forall (λ c', colorDistance_lt c c' 30 = false) cs ∧ farApart cs.
Proof.
  split.
  - intros Hfar. split.
    + apply Forall_lookup. intros k c' Hk.
      apply (colorDistance_ge_real _ _ 30). by apply (Hfar 0%nat (S k)).
    + intros i j c1 c2 Hne Hi Hj. apply (Hfar (S i) (S j)); [lia|done..].
  - intros [Hc Hfar] i j c1 c2 Hne Hi Hj. rewrite Forall_lookup in Hc.
    destruct i as [|i], j as [|j]; simpl in *; simplify_eq.
    + apply (colorDistance_ge_real _ _ 30). by eapply Hc.
    + apply (colorDistance_ge_real _ _ 30). rewrite colorDistance_lt_sym. by eapply Hc.
    + apply (Hfar i j); [lia|done..].
Qed.

Lemma farApart_perm cs cs' : cs ≡ₚ cs' → farApart cs → farApart cs'.
Proof.
  induction 1 as [|c cs cs' Hp IH|c c' cs|cs1 cs2 cs3 _ IH1 _ IH2]; [done| | |by auto].
  - rewrite !farApart_cons. intros [Hc Hfar]. split; [by rewrite <- Hp|by apply IH].
  - rewrite !farApart_cons, !Forall_cons. intros [[Hcc' Hc'] [Hc Hfar]].
    split_and!; try done. by rewrite colorDistance_lt_sym.
Qed.

Lemma palette_border_inv (img : ImageData) :
  0 < width img → 0 < height img →
  getBackgroundColors img ≠ [] ∧
  (length (getBackgroundColors img) ≤ 3)%nat ∧
  farApart (getBackgroundColors img) ∧
  ∀ c, c ∈ getBackgroundColors img →
    ∃ x y, inside (width img) (height img) x y ∧
           onBorder (width img) (height img) x y ∧ pixelAt img x y = c.
Proof.
  intros Hw Hh.
  destruct (sampleColors_inv img) as (Hfar & Hsub & Hcov & _ & _).
  unfold getBackgroundColors. rewrite fmap_take. split_and!.
  - assert (∃ px, px ∈ sampledColors img) as [px Hpx].
    { pose proof (samplePixels_nonempty (width img) (height img) Hw) as Hne.
      unfold sampledColors. destruct (samplePixels _ _) as [|p ps]; [done|].
      eexists. rewrite fmap_cons. apply list_elem_of_here. }
    destruct (Hcov px Hpx) as (c & Hc & _).
    rewrite <- (sortByCount_perm (sampleColors img)) in Hc.
    destruct (rgb <$> sortByCount (sampleColors img)) as [|c' cs]; [|done].
    by apply elem_of_nil in Hc.
  - rewrite length_take. lia.
  - apply farApart_take. eapply farApart_perm; [|exact Hfar].
    by rewrite sortByCount_perm.
  - intros c Hc%subseteq_take.
    rewrite sortByCount_perm in Hc. apply Hsub in Hc.
    unfold sampledColors in Hc. apply list_elem_of_fmap in Hc as (p & -> & Hp).
    apply samplePixels_border in Hp as [Hin Hb]; [|done..].
    by exists p.1, p.2.
Qed.

(** X3. For an image of at least one pixel: the palette is not empty, it has at
    most three colours, each is the colour of a border pixel of the image, and
    no two of them are within distance 30 of each other. *)
Theorem palette_from_border (img : ImageData) :
  0 < width img → 0 < height img →
  getBackgroundColors img ≠ [] ∧
  (length (getBackgroundColors img) ≤ 3)%nat ∧
  farApart (getBackgroundColors img) ∧
  ∀ c, c ∈ getBackgroundColors img →
    ∃ x y, inside (width img) (height img) x y ∧
           onBorder (width img) (height img) x y ∧ pixelAt img x y = c.
Proof. apply palette_border_inv. Qed.

Lemma palette_from_border_witness :
  getBackgroundColors ringImage ≠ [] ∧ (length (getBackgroundColors ringImage) ≤ 3)%nat.
Proof.
  assert (0 < width ringImage) as Hw by (simpl; lia).
  assert (0 < height ringImage) as Hh by (simpl; lia).
  destruct (palette_from_border ringImage Hw Hh) as (H1 & H2 & _).
  split; [exact H1|exact H2].
Defined.

(** X4. The palette keeps the most frequent clusters: the clusters split into
    those whose colours make the palette and the others, and none of the
    others has a greater count than a kept one. *)
Theorem palette_most_frequent (img : ImageData) :
  ∃ kept dropped,
    sampleColors img ≡ₚ kept ++ dropped ∧
    getBackgroundColors img = rgb <$> kept ∧
    ∀ k d, k ∈ kept → d ∈ dropped → count d ≤ count k.
Proof.
  exists (take 3 (sortByCount (sampleColors img))), (drop 3 (sortByCount (sampleColors img))).
  split_and!.
  - by rewrite take_drop, sortByCount_perm.
  - done.
  - intros k d Hk Hd.
    pose proof (sortByCount_sorted (sampleColors img)) as Hs.
    rewrite <- (take_drop 3 (sortByCount (sampleColors img))) in Hs.
    by apply (StronglySorted_app_1_elem_of _ _ _ k d Hs).
Qed.

(** ** What the edge detector reads *)

Lemma bind_ext_in {A B} (f g : A → list B) l :
  (∀ x, x ∈ l → f x = g x) → l ≫= f = l ≫= g.
Proof.
  induction l as [|x l IH]; intros Hfg; [done|].
  rewrite !bind_cons, Hfg by apply list_elem_of_here. f_equal.
  apply IH. intros x' Hx'. by apply Hfg, list_elem_of_further.
Qed.

Lemma sobel_red_only img img' x y :
  width img = width img' → height img = height img' →
  (∀ x' y', inside (width img) (height img) x' y' →
            r (pixelAt img x' y') = r (pixelAt img' x' y')) →
  1 ≤ x < width img - 1 → 1 ≤ y < height img - 1 →
  sobel img x y = sobel img' x y.
Proof.
  intros Hw Hh Hr Hx Hy. unfold sobel. rewrite <- Hw.
  assert (∀ x' y', 0 ≤ x' < width img → 0 ≤ y' < height img →
            byteAt (data img) ((y' * width img + x') * 4) =
            byteAt (data img') ((y' * width img + x') * 4)) as Hb.
  { intros x' y' Hx' Hy'. specialize (Hr x' y' (conj Hx' Hy')).
    unfold pixelAt, idx in Hr. simpl in Hr. by rewrite <- Hw in Hr. }
  by rewrite !Hb by lia.
Qed.

Lemma detectEdges_ext (img img' : ImageData) (threshold : Z) :
  width img = width img' → height img = height img' →
  (∀ x y, inside (width img) (height img) x y →
          r (pixelAt img x y) = r (pixelAt img' x y)) →
  detectEdges img threshold = detectEdges img' threshold.
Proof.
  intros Hw Hh Hr. rewrite !detectEdges_writes. rewrite <- Hw, <- Hh. f_equal.
  unfold edgeWrites. rewrite <- Hw, <- Hh.
  apply bind_ext_in. intros y Hy%elem_of_seqZ.
  apply bind_ext_in. intros x Hx%elem_of_seqZ.
  unfold isEdge. by rewrite (sobel_red_only img img') by (done || lia).
Qed.

(** X5. The edge mask depends on the red channel alone: two images of the same
    size with the same red channel have the same edge mask. *)
Theorem detectEdges_red_only (img img' : ImageData) (threshold : Z) :
  width img = width img' → height img = height img' →
  (∀ x y, inside (width img) (height img) x y →
          r (pixelAt img x y) = r (pixelAt img' x y)) →
  detectEdges img threshold = detectEdges img' threshold.
Proof. apply detectEdges_ext. Qed.

Lemma detectEdges_red_only_witness :
  detectEdges ringImage 10 = detectEdges ringImageRecoloured 10.
Proof.
  apply detectEdges_red_only; [reflexivity..|].
  intros x y Hin. simpl in Hin.
  apply (inside_forallb 10 10 (λ x y,
    r (pixelAt ringImage x y) =? r (pixelAt ringImageRecoloured x y))) in Hin;
    [by apply Z.eqb_eq in Hin|].
  vm_compute. reflexivity.
Defined.

(** X6. An image narrower or lower than three pixels has no interior pixel, and
    its edge mask is [false] everywhere. *)
Theorem detectEdges_no_interior (img : ImageData) (threshold : Z) :
  width img < 3 ∨ height img < 3 →
  detectEdges img threshold = replicate (Z.to_nat (width img * height img)) false.
Proof.
  intros Hsmall. rewrite detectEdges_writes.
  replace (edgeWrites img threshold) with (@nil (Z * bool)); [done|].
  symmetry. apply elem_of_nil_inv. intros w Hw.
  apply elem_of_edgeWrites in Hw as (x & y & Hx & Hy & _). lia.
Qed.

Lemma detectEdges_no_interior_witness :
  detectEdges tinyImage 10 = [false; false; false; false].
Proof. apply (detectEdges_no_interior tinyImage 10). left. simpl. lia. Defined.

(** ** More tolerance, or a higher edge setting, only removes more *)

Lemma sqrt_lt_mono n t t' : t ≤ t' → sqrt_lt n t = true → sqrt_lt n t' = true.
Proof.
  unfold sqrt_lt. rewrite !andb_true_iff, !Z.ltb_lt. intros Ht [H0 Hn]. split; [lia|nia].
Qed.

Lemma sqrt_gt_anti n t t' : t ≤ t' → sqrt_gt n t' = true → sqrt_gt n t = true.
Proof.
  unfold sqrt_gt. rewrite !orb_true_iff, !Z.ltb_lt. intros Ht [H0|Hn]; [lia|].
  destruct (Z.lt_ge_cases t 0); [by left|right; nia].
Qed.

Lemma isBackground_mono px palette t t' :
  t ≤ t' → isBackground px palette t = true → isBackground px palette t' = true.
Proof.
  intros Ht. unfold isBackground. rewrite !existsb_exists.
  intros (c & Hc & Hd). exists c. split; [done|].
  unfold colorDistance_lt in *. by eapply sqrt_lt_mono.
Qed.

Lemma isEdge_anti img t t' x y :
  t ≤ t' → isEdge img t' x y = true → isEdge img t x y = true.
Proof.
  intros Ht. unfold isEdge. destruct (sobel img x y) as [gx gy]. by apply sqrt_gt_anti.
Qed.

Lemma translucent_pos : 0 ≤ translucent ≤ 255.
Proof. rewrite translucent_76. lia. Qed.

Lemma classifyPixel_antitone bg bg' e e' :
  (bg = true → bg' = true) → (e' = true → e = true) →
  0 ≤ classifyPixel bg' e' ≤ classifyPixel bg e.
Proof.
  pose proof translucent_pos. unfold classifyPixel.
  destruct bg, bg', e, e'; simpl; intros Hbg He; try lia;
    try (by specialize (Hbg eq_refl)); by specialize (He eq_refl).
Qed.

(** The raw mask, pixel by pixel. *)
Lemma nthZ_rawMask img s x y :
  inside (width img) (height img) x y →
  nthZ (rawMask img s) (idx (width img) x y) =
  Some (classifyPixel
          (isBackground (pixelAt img x y) (getBackgroundColors img) (colorTolerance s))
          (bool_decide (1 ≤ x < width img - 1 ∧ 1 ≤ y < height img - 1) &&
           isEdge img (edgeDetection s * 10) x y)).
Proof.
  intros Hin. unfold rawMask. rewrite nthZ_classify, nthZ_detectEdges by done.
  simpl. by case_bool_decide.
Qed.

Lemma rawMask_antitone img s s' i a a' :
  0 < width img →
  colorTolerance s ≤ colorTolerance s' → edgeDetection s ≤ edgeDetection s' →
  nthZ (rawMask img s) i = Some a → nthZ (rawMask img s') i = Some a' →
  0 ≤ a' ≤ a.
Proof.
  intros Hw Ht He Ha Ha'.
  assert (0 ≤ i < width img * height img) as Hi.
  { apply nthZ_Some in Ha. unfold rawMask in Ha. rewrite length_classify in Ha. lia. }
  destruct (idx_surj _ _ _ Hw Hi) as (x & y & Hin & ->).
  rewrite nthZ_rawMask in Ha, Ha' by done. injection Ha as <-. injection Ha' as <-.
  apply classifyPixel_antitone.
  - by apply isBackground_mono.
  - rewrite !andb_true_iff. intros [Hint Hedge]. split; [done|].
    eapply isEdge_anti; [|exact Hedge]. lia.
Qed.

Lemma foldl_min_antitone a a' cs cs' :
  a' ≤ a → cs ⊆ cs' → foldl Z.min a' cs' ≤ foldl Z.min a cs.
Proof.
  intros Ha Hcs. apply foldl_min_ge.
  - pose proof (foldl_min_le a' cs'). lia.
  - intros c Hc. apply foldl_min_le_elem. by apply Hcs.
Qed.

(** Feathering is monotone in the raw mask: lowering raw values lowers
    feathered values. *)
Lemma feather_antitone w h featherRadius raw raw' i v v' :
  featherRadius ≤ 5 →
  (∀ j a, nthZ raw j = Some a → ∃ a', nthZ raw' j = Some a' ∧ 0 ≤ a' ≤ a) →
  nthZ (feather w h featherRadius raw) i = Some v →
  nthZ (feather w h featherRadius raw') i = Some v' →
  v' ≤ v.
Proof.
  intros HR Hle Hv Hv'. destruct (Z.ltb_spec 0 featherRadius) as [Hpos|Hneg].
  - rewrite nthZ_feather in Hv, Hv' by done.
    destruct (nthZ raw i) as [a|] eqn:Ha; [|done].
    destruct (Hle i a Ha) as (a' & Ha' & Hb). rewrite Ha' in Hv'.
    injection Hv as <-. injection Hv' as <-.
    destruct (decide (a' = 0)) as [->|Hnz].
    + rewrite proposals_zero by done. simpl.
      apply foldl_min_ge; [lia|]. intros c Hc%elem_of_proposals.
      apply elem_of_featherWrites in Hc
        as (x & y & dx & dy & a'' & _ & _ & _ & _ & _ & Hd%sqrt_le_true & _ & ->).
      apply fadeAlpha_byte; [lia|nia].
    + apply foldl_min_antitone; [lia|]. intros c Hc%elem_of_proposals.
      apply elem_of_proposals, elem_of_featherWrites.
      apply elem_of_featherWrites in Hc
        as (x & y & dx & dy & a'' & (Hx & Hy & Hz) & Hdx & Hdy & Hn & Hpos' & Hd & Hi & Hc).
      subst i c. exists x, y, dx, dy, a'. split_and!; try done; try lia.
      unfold zeroSource. split_and!; [lia..|].
      destruct (Hle _ _ Hz) as (z & Hz' & Hzb). assert (z = 0) as -> by lia. done.
  - unfold feather in Hv, Hv'. destruct (Z.ltb_spec 0 featherRadius); [lia|].
    destruct (Hle i v Hv) as (a' & Ha' & Hb). rewrite Ha' in Hv'. injection Hv' as <-. lia.
Qed.

Lemma finalMask_antitone img s s' i v v' :
  0 < width img → feathering s ≤ 5 → feathering s' = feathering s →
  colorTolerance s ≤ colorTolerance s' → edgeDetection s ≤ edgeDetection s' →
  nthZ (finalMask img s) i = Some v → nthZ (finalMask img s') i = Some v' →
  v' ≤ v.
Proof.
  intros Hw HR HR' Ht He. unfold finalMask. rewrite HR'.
  apply feather_antitone; [done|].
  intros j a Ha.
  destruct (nthZ_is_Some (rawMask img s') j) as [a' Ha'].
  { apply nthZ_Some in Ha. unfold rawMask in *. by rewrite length_classify in *. }
  exists a'. split; [done|]. by eapply rawMask_antitone.
Qed.

(** ** The alpha the pipeline stores *)

Lemma wf_imageb_spec img : wf_imageb img = true → wf_image img.
Proof.
  unfold wf_imageb, wf_image. rewrite !andb_true_iff, !Z.ltb_lt, Z.eqb_eq.
  intros [[[Hw Hh] Hlen] Hall]. split_and!; [done|done|lia|].
  apply Forall_forall. intros v Hv%list_elem_of_In.
  rewrite forallb_forall in Hall. apply Hall in Hv.
  apply andb_true_iff in Hv as [H0%Z.leb_le H255%Z.leb_le]. lia.
Qed.

Lemma crossImage_wf : wf_image crossImage.
Proof. apply wf_imageb_spec. vm_compute. reflexivity. Qed.

(** The alpha byte the last loop stores for a cell of the mask. *)
Lemma nthZ_applyAlpha d alphaChannel i v :
  nthZ alphaChannel i = Some v → i * 4 + 3 < Z.of_nat (length d) →
  nthZ (applyAlpha d alphaChannel) (i * 4 + 3) = Some (clamp8 v).
Proof.
  intros Hv Hlen. pose proof (nthZ_Some _ _ _ Hv) as Hi.
  rewrite applyAlpha_writes. apply writeAll_hit.
  - apply elem_of_alphaWrites. exists i. by rewrite Hv.
  - intros w (j & _ & ->)%elem_of_alphaWrites Hj. simpl in *.
    assert (j = i) as -> by lia. by rewrite Hv.
  - lia.
Qed.

Lemma alphaAt_removeBackground img s x y :
  wf_image img → inside (width img) (height img) x y →
  ∃ v, nthZ (finalMask img s) (idx (width img) x y) = Some v ∧
       alphaAt (removeBackground img s) x y = clamp8 v.
Proof.
  intros (Hw & Hh & Hlen & _) Hin. pose proof (idx_in_range _ _ _ _ Hin) as Hi.
  destruct (nthZ_is_Some (finalMask img s) (idx (width img) x y)) as [v Hv].
  { by rewrite length_finalMask. }
  exists v. split; [done|]. unfold alphaAt, byteAt, removeBackground. simpl.
  rewrite (nthZ_applyAlpha _ _ _ v); [done..|]. rewrite Hlen. lia.
Qed.

Lemma clamp8_mono v v' : v' ≤ v → clamp8 v' ≤ clamp8 v.
Proof. unfold clamp8. lia. Qed.

Lemma alphaAt_antitone img s s' x y :
  wf_image img → feathering s ≤ 5 → feathering s' = feathering s →
  colorTolerance s ≤ colorTolerance s' → edgeDetection s ≤ edgeDetection s' →
  inside (width img) (height img) x y →
  alphaAt (removeBackground img s') x y ≤ alphaAt (removeBackground img s) x y.
Proof.
  intros Hwf HR HR' Ht He Hin.
  destruct (alphaAt_removeBackground img s x y Hwf Hin) as (v & Hv & ->).
  destruct (alphaAt_removeBackground img s' x y Hwf Hin) as (v' & Hv' & ->).
  apply clamp8_mono. destruct Hwf as (Hw & _).
  by eapply (finalMask_antitone img s s').
Qed.

(** X7. Raising the colour tolerance never raises the alpha of a pixel of the
    output: what a lower tolerance removes, a higher one removes too. *)
Theorem more_tolerance_removes_more (img : ImageData) (t t' e R x y : Z) :
  wf_image img → R ≤ 5 → t ≤ t' → inside (width img) (height img) x y →
  alphaAt (removeBackground img
             {| colorTolerance := t'; edgeDetection := e; feathering := R |}) x y ≤
  alphaAt (removeBackground img
             {| colorTolerance := t; edgeDetection := e; feathering := R |}) x y.
Proof. intros Hwf HR Ht Hin. apply alphaAt_antitone; simpl; (done || lia). Qed.

(** X8. Raising the edge-detection setting never raises the alpha of a pixel of
    the output: a higher setting is a higher Sobel threshold, so fewer pixels
    count as edges and fewer background-coloured pixels are kept at 76. *)
Theorem higher_edge_setting_removes_more (img : ImageData) (t e e' R x y : Z) :
  wf_image img → R ≤ 5 → e ≤ e' → inside (width img) (height img) x y →
  alphaAt (removeBackground img
             {| colorTolerance := t; edgeDetection := e'; feathering := R |}) x y ≤
  alphaAt (removeBackground img
             {| colorTolerance := t; edgeDetection := e; feathering := R |}) x y.
Proof. intros Hwf HR He Hin. apply alphaAt_antitone; simpl; (done || lia). Qed.

Lemma more_tolerance_removes_more_witness :
  alphaAt (removeBackground crossImage
             {| colorTolerance := 100; edgeDetection := 1; feathering := 2 |}) 1 1 ≤
  alphaAt (removeBackground crossImage
             {| colorTolerance := 30; edgeDetection := 1; feathering := 2 |}) 1 1.
Proof.
  apply (more_tolerance_removes_more crossImage 30 100 1 2 1 1).
  - apply crossImage_wf.
  - lia.
  - lia.
  - unfold inside. simpl. lia.
Defined.

Lemma higher_edge_setting_removes_more_witness :
  alphaAt (removeBackground ringImage
             {| colorTolerance := 30; edgeDetection := 10; feathering := 2 |}) 1 1 ≤
  alphaAt (removeBackground ringImage
             {| colorTolerance := 30; edgeDetection := 1; feathering := 2 |}) 1 1.
Proof.
  apply (higher_edge_setting_removes_more ringImage 30 1 10 2 1 1).
  - apply ringImage_described.
  - lia.
  - lia.
  - unfold inside. simpl. lia.
Defined.

(** ** Border pixels of a background colour *)

(** A cell that is transparent in the raw mask is transparent after
    feathering. *)
Lemma feather_le_raw_zero w h featherRadius alphaChannel i :
  nthZ alphaChannel i = Some 0 →
  nthZ (feather w h featherRadius alphaChannel) i = Some 0.
Proof.
  intros Ha. destruct (Z.ltb_spec 0 featherRadius) as [HR|HR].
  - by rewrite nthZ_feather, Ha, proposals_zero by done.
  - unfold feather. by destruct (Z.ltb_spec 0 featherRadius); [lia|].
Qed.

Lemma finalMask_zero img s i :
  nthZ (rawMask img s) i = Some 0 → nthZ (finalMask img s) i = Some 0.
Proof.
  intros Hraw. unfold finalMask.
  by apply feather_le_raw_zero.
Qed.

(** X9. A border pixel whose colour is within the tolerance of a palette colour
    is fully transparent in the output: border pixels are never edges, and
    feathering leaves a transparent pixel transparent. *)
Theorem border_background_transparent (img : ImageData) (s : ProcessingSettings) (x y : Z) :
  wf_image img →
  inside (width img) (height img) x y →
  onBorder (width img) (height img) x y →
  minDistanceBelow (pixelAt img x y) (getBackgroundColors img) (colorTolerance s) →
  alphaAt (removeBackground img s) x y = 0.
Proof.
  intros Hwf Hin Hb Hbg.
  destruct (alphaAt_removeBackground img s x y Hwf Hin) as (v & Hv & ->).
  rewrite finalMask_zero in Hv; [by injection Hv as <-|].
  rewrite nthZ_rawMask by done.
  apply minDistance_lt_real in Hbg. rewrite <- isBackground_min in Hbg. rewrite Hbg.
  unfold onBorder in Hb. rewrite bool_decide_false by lia. done.
Qed.

Lemma border_background_transparent_witness :
  alphaAt (removeBackground ringImage featherSettings) 0 3 = 0.
Proof.
  apply (border_background_transparent ringImage featherSettings 0 3).
  - apply ringImage_described.
  - unfold inside. simpl. lia.
  - left. reflexivity.
  - apply minDistance_lt_real. vm_compute. reflexivity.
Defined.

Lemma isBackground_member c palette t :
  0 < t → c ∈ palette → isBackground c palette t = true.
Proof.
  intros Ht Hc. unfold isBackground. apply existsb_exists.
  exists c. split; [by apply list_elem_of_In|by apply colorDistance_lt_refl].
Qed.

(** X10. With a positive tolerance the pipeline always removes something: every
    image has a border pixel that is fully transparent in the output. *)
Theorem always_removes_a_border_pixel (img : ImageData) (s : ProcessingSettings) :
  wf_image img → 0 < colorTolerance s →
  ∃ x y, inside (width img) (height img) x y ∧
         onBorder (width img) (height img) x y ∧
         alphaAt (removeBackground img s) x y = 0.
Proof.
  intros Hwf Ht. pose proof Hwf as (Hw & Hh & _).
  destruct (palette_border_inv img Hw Hh) as (Hne & _ & _ & Hborder).
  destruct (getBackgroundColors img) as [|c palette] eqn:Hpal; [done|].
  destruct (Hborder c) as (x & y & Hin & Hb & Hpx); [apply list_elem_of_here|].
  exists x, y. split_and!; [done..|].
  destruct (alphaAt_removeBackground img s x y Hwf Hin) as (v & Hv & ->).
  rewrite finalMask_zero in Hv; [by injection Hv as <-|].
  rewrite nthZ_rawMask, Hpal, Hpx by done.
  rewrite isBackground_member; [|done|apply list_elem_of_here].
  unfold onBorder in Hb. rewrite bool_decide_false by lia. done.
Qed.

Lemma always_removes_a_border_pixel_witness :
  ∃ x y, inside (width crossImage) (height crossImage) x y ∧
         onBorder (width crossImage) (height crossImage) x y ∧
         alphaAt (removeBackground crossImage featherSettings) x y = 0.
Proof.
  apply (always_removes_a_border_pixel crossImage featherSettings).
  - apply crossImage_wf.
  - simpl. lia.
Defined.

(** ** More on feathering *)

Lemma featherWrites_no_source w h featherRadius alphaChannel :
  (∀ x y, ¬ zeroSource w h featherRadius alphaChannel x y) →
  featherWrites w h featherRadius alphaChannel = [].
Proof.
  intros Hno. apply elem_of_nil_inv. intros [i c] Hw.
  apply elem_of_featherWrites in Hw as (x & y & dx & dy & a & Hs & _).
  by apply (Hno x y).
Qed.

(** X11. Feathering needs a source: when no pixel of the band
    [R <= x < width - R], [R <= y < height - R] is transparent in the raw mask,
    and so whenever the image is at most [2 * R] wide or high, the mask comes
    back unchanged, whatever transparent pixels lie outside the band. *)
Theorem feather_without_source (w h featherRadius : Z) (alphaChannel : list Z) :
  ((∀ x y, ¬ zeroSource w h featherRadius alphaChannel x y) →
   feather w h featherRadius alphaChannel = alphaChannel) ∧
  (w ≤ 2 * featherRadius ∨ h ≤ 2 * featherRadius →
   feather w h featherRadius alphaChannel = alphaChannel).
Proof.
  assert ((∀ x y, ¬ zeroSource w h featherRadius alphaChannel x y) →
          feather w h featherRadius alphaChannel = alphaChannel) as Hno.
  { intros Hno. unfold feather. destruct (0 <? featherRadius); [|done].
    by rewrite featherLoops_writes, featherWrites_no_source. }
  split; [exact Hno|].
  intros Hsmall. apply Hno. intros x y (Hx & Hy & _). lia.
Qed.

Lemma feather_without_source_witness :
  feather 4 4 2 [0; 0; 0; 0; 0; 255; 255; 0; 0; 255; 0; 0; 0; 0; 0; 0] =
  [0; 0; 0; 0; 0; 255; 255; 0; 0; 255; 0; 0; 0; 0; 0; 0].
Proof.
  apply (proj2 (feather_without_source 4 4 2
                  [0; 0; 0; 0; 0; 255; 255; 0; 0; 255; 0; 0; 0; 0; 0; 0])).
  left. lia.
Defined.

(** X12. Feathering clears the pixels at distance exactly [R] from a source: for
    a radius of the slider, a pixel that is not transparent in the raw mask and
    whose squared distance to a source is [R * R] ends with alpha 0. *)
Theorem feather_clears_at_radius (w h featherRadius : Z) (alphaChannel : list Z)
    (sx sy px py a : Z) :
  1 ≤ featherRadius ≤ 5 →
  zeroSource w h featherRadius alphaChannel sx sy →
  distSq sx sy px py = featherRadius * featherRadius →
  nthZ alphaChannel (idx w px py) = Some a → 0 < a →
  nthZ (feather w h featherRadius alphaChannel) (idx w px py) = Some 0.
Proof.
  intros HR Hs Hd Ha Hpos. unfold distSq in Hd.
  rewrite nthZ_feather, Ha by lia. simpl. f_equal.
  apply Z.le_antisymm.
  - rewrite <- (proj2 (fadeAlpha_ends featherRadius HR)).
    apply foldl_min_le_elem, elem_of_proposals, elem_of_featherWrites.
    exists sx, sy, (px - sx), (py - sy), a.
    replace (sx + (px - sx)) with px by lia. replace (sy + (py - sy)) with py by lia.
    pose proof (square_le_bound (px - sx) (py - sy) featherRadius ltac:(lia) ltac:(lia)).
    pose proof (square_le_bound (py - sy) (px - sx) featherRadius ltac:(lia) ltac:(lia)).
    split_and!; try done; try lia.
    + apply sqrt_le_true. lia.
    + f_equal. lia.
  - apply foldl_min_ge; [lia|]. intros c Hc%elem_of_proposals.
    apply elem_of_featherWrites in Hc
      as (x & y & dx & dy & a' & _ & _ & _ & _ & _ & Hle%sqrt_le_true & _ & ->).
    apply fadeAlpha_byte; [lia|nia].
Qed.

Lemma feather_clears_at_radius_witness :
  nthZ (feather 6 6 2 (rawMask crossImage featherSettings)) (idx 6 2 1) = Some 0.
Proof.
  apply (feather_clears_at_radius 6 6 2 (rawMask crossImage featherSettings) 2 3 2 1 255).
  - lia.
  - unfold zeroSource. split_and!; [lia..|vm_compute; reflexivity].
  - reflexivity.
  - vm_compute. reflexivity.
  - lia.
Defined.

(** X13. A feathered alpha is never invented: it is the raw alpha of the pixel,
    or the candidate [floor(255 * (1 - d / R))] for the distance [d <= R] from
    the pixel to some source. *)
Theorem feather_value_attained (w h featherRadius : Z) (alphaChannel : list Z)
    (px py v : Z) :
  0 < featherRadius → inside w h px py →
  nthZ (feather w h featherRadius alphaChannel) (idx w px py) = Some v →
  nthZ alphaChannel (idx w px py) = Some v ∨
  ∃ sx sy, zeroSource w h featherRadius alphaChannel sx sy ∧
           distSq sx sy px py ≤ featherRadius * featherRadius ∧
           v = fadeAlpha featherRadius (distSq sx sy px py).
Proof.
  intros HR [Hpx Hpy] Hv. rewrite nthZ_feather in Hv by done.
  destruct (nthZ alphaChannel (idx w px py)) as [a|] eqn:Ha; [|done].
  injection Hv as <-.
  destruct (foldl_min_attained a
    (proposals (idx w px py) (featherWrites w h featherRadius alphaChannel)))
    as [->|Hc]; [by left|right].
  apply elem_of_proposals, elem_of_featherWrites in Hc
    as (x & y & dx & dy & a' & Hs & Hdx & Hdy & _ & _ & Hle%sqrt_le_true & Heq & Hc).
  pose proof Hs as (Hx & Hy & _).
  apply idx_inj in Heq as [-> ->]; [|lia..].
  exists x, y. unfold distSq.
  replace (x + dx - x) with dx by lia. replace (y + dy - y) with dy by lia.
  split_and!; [done|lia|done].
Qed.

Lemma feather_value_attained_witness :
  nthZ (rawMask crossImage featherSettings) (idx 6 1 1) = Some 74 ∨
  ∃ sx sy, zeroSource 6 6 2 (rawMask crossImage featherSettings) sx sy ∧
           distSq sx sy 1 1 ≤ 2 * 2 ∧ 74 = fadeAlpha 2 (distSq sx sy 1 1).
Proof.
  apply (feather_value_attained 6 6 2 (rawMask crossImage featherSettings) 1 1 74).
  - lia.
  - unfold inside. lia.
  - vm_compute. reflexivity.
Defined.

(** ** The input alpha is not read, and the pipeline is idempotent *)

Lemma Forall_nthZ {A} (P : A → Prop) (l : list A) :
  Forall P l ↔ ∀ i v, nthZ l i = Some v → P v.
Proof.
  rewrite Forall_lookup. split.
  - intros Hl i v. unfold nthZ. case_bool_decide; [apply Hl|done].
  - intros Hl n v Hn. apply (Hl (Z.of_nat n)). unfold nthZ.
    rewrite bool_decide_true by lia. by rewrite Nat2Z.id.
Qed.

Lemma clamp8_range v : 0 ≤ clamp8 v ≤ 255.
Proof. unfold clamp8. lia. Qed.

Lemma removeBackground_wf img s : wf_image img → wf_image (removeBackground img s).
Proof.
  intros (Hw & Hh & Hlen & Hbytes). unfold wf_image, removeBackground. simpl.
  rewrite applyAlpha_writes, length_writeAll. split_and!; [done..|].
  apply Forall_nthZ. intros i v.
  apply (writeAll_values (λ v, 0 ≤ v ≤ 255)).
  - by apply Forall_nthZ.
  - intros w (j & _ & ->)%elem_of_alphaWrites. apply clamp8_range.
Qed.

Lemma pixelAt_removeBackground img s x y :
  pixelAt (removeBackground img s) x y = pixelAt img x y.
Proof.
  unfold removeBackground, pixelAt, byteAt. simpl.
  rewrite <- (Z.add_0_r (idx (width img) x y * 4)), <- !Z.add_assoc. simpl.
  by rewrite !applyAlpha_rgb by lia.
Qed.

Lemma sampleColors_ext img img' :
  0 < width img → 0 < height img →
  sameColours img img' → sampleColors img = sampleColors img'.
Proof.
  intros Hw Hh (Hw' & Hh' & Hpx). unfold sampleColors. rewrite <- Hw', <- Hh'. f_equal.
  apply Forall_fmap_ext_1, Forall_forall. intros p Hp.
  apply samplePixels_border in Hp as [Hin _]; [|done..]. by apply Hpx.
Qed.

Lemma classify_ext img img' palette edges t :
  sameColours img img' → classify img palette edges t = classify img' palette edges t.
Proof.
  intros (Hw & Hh & Hpx). rewrite !classify_writes. rewrite <- Hw, <- Hh. f_equal.
  unfold classifyWrites. rewrite <- Hw, <- Hh.
  apply bind_ext_in. intros y Hy%elem_of_seqZ.
  apply bind_ext_in. intros x Hx%elem_of_seqZ.
  rewrite (Hpx x y); [done|]. unfold inside. lia.
Qed.

Lemma finalMask_ext img img' s :
  0 < width img → 0 < height img →
  sameColours img img' → finalMask img s = finalMask img' s.
Proof.
  intros Hw Hh Hsame. pose proof Hsame as (Hw' & Hh' & Hpx).
  unfold finalMask, rawMask, getBackgroundColors.
  rewrite <- Hw', <- Hh', (sampleColors_ext img img') by done.
  rewrite (detectEdges_ext img img') by (done || by intros x y ->%Hpx).
  by rewrite (classify_ext img img').
Qed.

(** The bytes of two images with the same colours agree off the alpha
    channel. *)
Lemma sameColours_bytes img img' i c :
  wf_image img → wf_image img' → sameColours img img' →
  0 ≤ i < width img * height img → 0 ≤ c < 3 →
  nthZ (data img) (i * 4 + c) = nthZ (data img') (i * 4 + c).
Proof.
  intros (Hw & Hh & Hlen & _) (_ & _ & Hlen' & _) (Hw' & Hh' & Hpx) Hi Hc.
  destruct (idx_surj _ _ _ Hw Hi) as (x & y & Hin & ->).
  specialize (Hpx x y Hin). unfold pixelAt in Hpx. rewrite <- Hw' in Hpx.
  injection Hpx as Hr Hg Hb. unfold byteAt in *.
  rewrite <- Hw', <- Hh' in Hlen'.
  assert (∀ (d : list Z) k, length d = Z.to_nat (4 * (width img * height img)) →
            0 ≤ k < 4 → is_Some (nthZ d (idx (width img) x y * 4 + k))) as Hsome.
  { intros d k Hd Hk. apply nthZ_is_Some. lia. }
  assert (c = 0 ∨ c = 1 ∨ c = 2) as [->|[->| ->]] by lia.
  - rewrite Z.add_0_r.
    destruct (Hsome (data img) 0 Hlen ltac:(lia)) as [v Hv].
    destruct (Hsome (data img') 0 Hlen' ltac:(lia)) as [v' Hv'].
    rewrite Z.add_0_r in Hv, Hv'. rewrite Hv, Hv' in *. simpl in Hr. by subst.
  - destruct (Hsome (data img) 1 Hlen ltac:(lia)) as [v Hv].
    destruct (Hsome (data img') 1 Hlen' ltac:(lia)) as [v' Hv'].
    rewrite Hv, Hv' in *. simpl in Hg. by subst.
  - destruct (Hsome (data img) 2 Hlen ltac:(lia)) as [v Hv].
    destruct (Hsome (data img') 2 Hlen' ltac:(lia)) as [v' Hv'].
    rewrite Hv, Hv' in *. simpl in Hb. by subst.
Qed.

Lemma removeBackground_ext img img' s :
  wf_image img → wf_image img' → sameColours img img' →
  removeBackground img s = removeBackground img' s.
Proof.
  intros Hwf Hwf' Hsame.
  pose proof Hwf as (Hw & Hh & Hlen & _). pose proof Hwf' as (_ & _ & Hlen' & _).
  pose proof Hsame as (Hw' & Hh' & _).
  unfold removeBackground. rewrite <- Hw', <- Hh'. f_equal.
  rewrite <- (finalMask_ext img img') by done.
  rewrite <- Hw', <- Hh' in Hlen'.
  apply nthZ_ext.
  { rewrite !applyAlpha_writes, !length_writeAll. congruence. }
  intros j.
  destruct (decide (0 ≤ j < 4 * (width img * height img))) as [Hj|Hj].
  - pose proof (Z.div_mod j 4 ltac:(lia)) as Hdm.
    pose proof (Z.mod_pos_bound j 4 ltac:(lia)) as Hm.
    assert (0 ≤ j `div` 4 < width img * height img) as Hi.
    { split; [apply Z.div_pos; lia|apply Z.div_lt_upper_bound; lia]. }
    replace j with (j `div` 4 * 4 + j `mod` 4) by lia.
    destruct (decide (j `mod` 4 = 3)) as [->|Hc].
    + destruct (nthZ_is_Some (finalMask img s) (j `div` 4)) as [v Hv].
      { rewrite length_finalMask. lia. }
      rewrite !(nthZ_applyAlpha _ _ _ v) by (done || lia). done.
    + rewrite !applyAlpha_rgb by lia. apply sameColours_bytes; (done || lia).
  - rewrite !nthZ_None; [done|..];
      rewrite applyAlpha_writes, length_writeAll; lia.
Qed.

(** X14. The pipeline does not read the alpha channel of its input: two images
    with the same size and the same R, G and B at every pixel give the same
    output, whatever their alpha bytes. *)
Theorem removeBackground_ignores_alpha (img img' : ImageData) (s : ProcessingSettings) :
  wf_image img → wf_image img' → sameColours img img' →
  removeBackground img s = removeBackground img' s.
Proof. apply removeBackground_ext. Qed.

Lemma ringImage_sameColours : sameColours ringImage (removeBackground ringImage ringSettings).
Proof.
  split_and!; [done..|]. intros x y _. by rewrite pixelAt_removeBackground.
Qed.

Lemma removeBackground_ignores_alpha_witness :
  removeBackground ringImage featherSettings =
  removeBackground (removeBackground ringImage ringSettings) featherSettings.
Proof.
  apply (removeBackground_ignores_alpha ringImage
           (removeBackground ringImage ringSettings) featherSettings).
  - apply ringImage_described.
  - apply removeBackground_wf, ringImage_described.
  - apply ringImage_sameColours.
Defined.

(** X15. Running the pipeline on its own output, with the same settings, changes
    nothing, and the output of a run is again a well-formed image. *)
Theorem removeBackground_idempotent (img : ImageData) (s : ProcessingSettings) :
  wf_image img →
  wf_image (removeBackground img s) ∧
  removeBackground (removeBackground img s) s = removeBackground img s.
Proof.
  intros Hwf. split; [by apply removeBackground_wf|].
  apply removeBackground_ext; [by apply removeBackground_wf|done|].
  split_and!; [done..|]. intros x y _. apply pixelAt_removeBackground.
Qed.

Lemma removeBackground_idempotent_witness :
  wf_image (removeBackground crossImage featherSettings) ∧
  removeBackground (removeBackground crossImage featherSettings) featherSettings =
  removeBackground crossImage featherSettings.
Proof. apply (removeBackground_idempotent crossImage featherSettings crossImage_wf). Defined.

(** ** The feathering candidate and the exact floor *)

Lemma sqrt_IZR_65025 n :
  0 ≤ n → R_sqrt.sqrt (IZR (65025 * n)) = (255 * R_sqrt.sqrt (IZR n))%R.
Proof.
  intros Hn. rewrite mult_IZR, sqrt_mult; [|apply IZR_le; lia|by apply IZR_le].
  f_equal. change 65025 with (255 * 255). by apply sqrt_IZR_square.
Qed.

Lemma sqrt_IZR_le_square N t : 0 ≤ t → N ≤ t * t → (R_sqrt.sqrt (IZR N) <= IZR t)%R.
Proof.
  intros Ht HN. rewrite <- (sqrt_IZR_square t) by done.
  destruct (Z.lt_ge_cases N 0) as [Hneg|Hpos].
  - rewrite sqrt_neg_0; [apply sqrt_pos|]. apply IZR_le. lia.
  - apply sqrt_le_1_alt. by apply IZR_le.
Qed.

Lemma sqrt_IZR_gt_square N t : 0 ≤ t → t * t < N → (IZR t < R_sqrt.sqrt (IZR N))%R.
Proof.
  intros Ht HN. rewrite <- (sqrt_IZR_square t) by done.
  apply sqrt_lt_1_alt. split; [apply IZR_le; nia|by apply IZR_lt].
Qed.

Lemma exactFloorb_spec R n k :
  0 < R → 0 ≤ n → exactFloorb R n k = true → exactFloor R n k.
Proof.
  intros HR Hn. unfold exactFloorb, exactFloor.
  rewrite !andb_true_iff, orb_true_iff, !Z.leb_le, !Z.ltb_lt.
  intros [[Hm Hle] Hgt].
  assert (0 < IZR R)%R as HR' by (by apply (IZR_lt 0)).
  pose proof (sqrt_pos (IZR (65025 * n))) as Hs.
  assert (255 * (1 - R_sqrt.sqrt (IZR n) / IZR R) =
          255 - R_sqrt.sqrt (IZR (65025 * n)) / IZR R)%R as ->.
  { rewrite sqrt_IZR_65025 by done. field. lra. }
  set (S := R_sqrt.sqrt (IZR (65025 * n))) in *.
  assert (S = S / IZR R * IZR R)%R as HS by (field; lra).
  set (q := (S / IZR R)%R) in *.
  split.
  - apply (sqrt_IZR_le_square _ ((255 - k) * R)) in Hle; [|nia].
    fold S in Hle. rewrite mult_IZR, minus_IZR in Hle. nra.
  - destruct (Z.lt_ge_cases (254 - k) 0) as [Hk|Hk].
    + assert (255 <= IZR k)%R by (apply IZR_le; lia).
      assert (0 <= q)%R by nra. lra.
    + destruct Hgt as [Hgt|Hgt]; [lia|].
      apply (sqrt_IZR_gt_square _ ((254 - k) * R)) in Hgt; [|nia].
      fold S in Hgt. rewrite mult_IZR, minus_IZR in Hgt. nra.
Qed.

Lemma fadeAlpha_exact_checked R : 1 ≤ R ≤ 5 → fadeAlpha_exact_check R = true.
Proof.
  intros HR.
  assert (R = 1 ∨ R = 2 ∨ R = 3 ∨ R = 4 ∨ R = 5) as [->|[->|[->|[->| ->]]]] by lia;
    vm_compute; reflexivity.
Qed.

(** X21. For the radii of the slider, the candidate the code computes in
    binary64 is the exact floor of [255 * (1 - sqrt n / R)] at every squared
    distance [n <= R * R], except at radius 5 and distance 4 ([n = 16]), where
    rounding makes it 50 and the exact floor is 51. *)
Theorem fadeAlpha_exact (R n : Z) :
  1 ≤ R ≤ 5 → 0 ≤ n ≤ R * R →
  (¬ (R = 5 ∧ n = 16) → exactFloor R n (fadeAlpha R n)) ∧
  (R = 5 → n = 16 → fadeAlpha R n = 50 ∧ exactFloor R n 51).
Proof.
  intros HR Hn. split.
  - intros Hne. apply exactFloorb_spec; [lia..|].
    pose proof (fadeAlpha_exact_checked R HR) as Hc. unfold fadeAlpha_exact_check in Hc.
    apply (forallb_seqZ _ _ _ n) in Hc; [|lia].
    apply orb_prop in Hc as [Hc|Hc]; [|done].
    apply andb_prop in Hc as [HR5%Z.eqb_eq Hn16%Z.eqb_eq]. by destruct Hne.
  - intros -> ->. split; [by vm_compute|].
    apply exactFloorb_spec; [lia..|]. by vm_compute.
Qed.

Lemma fadeAlpha_exact_witness :
  exactFloor 2 2 (fadeAlpha 2 2) ∧ fadeAlpha 5 16 = 50 ∧ exactFloor 5 16 51.
Proof.
  split.
  - apply (fadeAlpha_exact 2 2); lia.
  - apply (fadeAlpha_exact 5 16); lia.
Defined.

(** * Properties of the simple pipeline *)

Lemma simple_step_writes w s d i :
  Simple.step w s d i = writeAll (Simple.stepWrites w s d i) d.
Proof.
  unfold Simple.step, Simple.stepWrites.
  destruct (Simple.aboveThreshold _ _ _ _ && negb _); [done|].
  by destruct (Simple.aboveSoftThreshold _ _ _ _).
Qed.

Lemma simple_length_step w s d i : length (Simple.step w s d i) = length d.
Proof. by rewrite simple_step_writes, length_writeAll. Qed.

(** An iteration writes the alpha byte of its own pixel only. *)
Lemma simple_step_other w s d i j :
  j ≠ i + 3 → nthZ (Simple.step w s d i) j = nthZ d j.
Proof.
  intros Hj. rewrite simple_step_writes. apply writeAll_other.
  intros [k v] Hk. simpl. unfold Simple.stepWrites in Hk.
  destruct (Simple.aboveThreshold _ _ _ _ && negb _).
  { apply list_elem_of_singleton in Hk. injection Hk as -> _. lia. }
  destruct (Simple.aboveSoftThreshold _ _ _ _).
  { apply list_elem_of_singleton in Hk. injection Hk as -> _. lia. }
  by apply elem_of_nil in Hk.
Qed.

Lemma simple_step_alpha w s d i :
  0 ≤ i → i + 3 < Z.of_nat (length d) →
  nthZ (Simple.step w s d i) (i + 3) = Some (Simple.pixelAlpha w s d i).
Proof.
  intros Hi Hlen. unfold Simple.step, Simple.pixelAlpha.
  destruct (Simple.aboveThreshold _ _ _ _ && negb _).
  { by rewrite nthZ_updZ_eq by lia. }
  destruct (Simple.aboveSoftThreshold _ _ _ _).
  { by rewrite nthZ_updZ_eq by lia. }
  unfold byteAt. destruct (nthZ_is_Some d (i + 3)) as [v ->]; [lia|done].
Qed.

(** What an iteration computes depends on the four bytes of its pixel. *)
Lemma simple_pixelAlpha_ext w s d d' i :
  length d = length d' →
  (∀ k, 0 ≤ k < 4 → nthZ d (i + k) = nthZ d' (i + k)) →
  Simple.pixelAlpha w s d i = Simple.pixelAlpha w s d' i.
Proof.
  intros Hlen Hd. unfold Simple.pixelAlpha, byteAt.
  pose proof (Hd 0 ltac:(lia)) as H0. rewrite Z.add_0_r in H0.
  by rewrite H0, (Hd 1), (Hd 2), (Hd 3), Hlen by lia.
Qed.

(** The loop, offset by offset: the pixels at the offsets still to come are
    as in the array the loop started from. *)
Lemma simple_foldl w s d ks j :
  Forall (λ k, 0 ≤ k) ks → NoDup ks →
  nthZ (foldl (Simple.step w s) d ((λ k, 4 * k) <$> ks)) j =
  if decide (Exists (λ k, j = 4 * k + 3) ks ∧ j < Z.of_nat (length d))
  then Some (Simple.pixelAlpha w s d (j - 3)) else nthZ d j.
Proof.
  revert d. induction ks as [|k ks IH]; intros d Hpos Hnd.
  { rewrite fmap_nil. cbn [foldl]. case_decide as Hex; [|done].
    destruct Hex as [Hex _]. by apply Exists_nil in Hex. }
  apply Forall_cons in Hpos as [Hk Hpos]. apply NoDup_cons in Hnd as [Hnk Hnd].
  rewrite fmap_cons. cbn [foldl]. rewrite IH by done. rewrite simple_length_step.
  destruct (decide (Exists (λ k', j = 4 * k' + 3) ks ∧ j < Z.of_nat (length d)))
    as [[Hex Hlen]|Hno].
  - rewrite decide_True by (split; [by apply Exists_cons_tl|done]).
    apply Exists_exists in Hex as (k' & Hk' & ->).
    f_equal. apply simple_pixelAlpha_ext; [apply simple_length_step|].
    intros c Hc. apply simple_step_other.
    intros Heq. assert (k' = k) as -> by lia. done.
  - destruct (decide (j = 4 * k + 3 ∧ j < Z.of_nat (length d))) as [[-> Hlen]|Hnk'].
    + rewrite decide_True by (split; [by apply Exists_cons_hd|done]).
      replace (4 * k + 3 - 3) with (4 * k) by lia. apply simple_step_alpha; lia.
    + rewrite decide_False.
      * destruct (decide (j = 4 * k + 3)) as [->|Hj]; [|by apply simple_step_other].
        rewrite !nthZ_None; [done|lia|rewrite simple_length_step; lia].
      * intros [[Hj|Hex]%Exists_cons Hlen]; [by apply Hnk'|by apply Hno].
Qed.

(** The bytes of the output of the simple pipeline on a well-formed image:
    the alpha byte of a pixel is what its iteration computes from the input
    pixel, every other byte is the input byte. *)
Lemma simple_output_alpha img s p :
  wf_image img → 0 ≤ p < width img * height img →
  nthZ (data (Simple.removeBackground img s)) (4 * p + 3) =
  Some (Simple.pixelAlpha (width img) s (data img) (4 * p)).
Proof.
  intros (Hw & Hh & Hlen & _) Hp. unfold Simple.removeBackground, Simple.offsets. simpl.
  rewrite simple_foldl; [|apply Forall_seqZ; intros; lia|apply NoDup_seqZ].
  rewrite decide_True.
  - by replace (4 * p + 3 - 3) with (4 * p) by lia.
  - split; [|lia]. apply Exists_exists. exists p. split; [|done]. apply elem_of_seqZ.
    rewrite Hlen, Z2Nat.id by lia.
    replace (4 * (width img * height img) + 3) with (3 + (width img * height img) * 4) by lia.
    rewrite Z.div_add by lia. change (3 `div` 4) with 0. lia.
Qed.

Lemma simple_output_rgb img s j :
  j `mod` 4 ≠ 3 →
  nthZ (data (Simple.removeBackground img s)) j = nthZ (data img) j.
Proof.
  intros Hj. unfold Simple.removeBackground, Simple.offsets. simpl.
  rewrite simple_foldl; [|apply Forall_seqZ; intros; lia|apply NoDup_seqZ].
  rewrite decide_False; [done|]. intros [(k & _ & ->)%Exists_exists _].
  apply Hj. replace (4 * k + 3) with (3 + k * 4) by lia.
  by rewrite Z.mod_add by lia.
Qed.

Lemma simple_length_foldl w s ks d :
  length (foldl (Simple.step w s) d ks) = length d.
Proof.
  revert d. induction ks as [|k ks IH]; intros d; [done|].
  cbn [foldl]. rewrite IH. apply simple_length_step.
Qed.

Lemma simple_length img s :
  length (data (Simple.removeBackground img s)) = length (data img).
Proof. apply simple_length_foldl. Qed.

Lemma simple_alphaAt img s x y :
  wf_image img → inside (width img) (height img) x y →
  alphaAt (Simple.removeBackground img s) x y =
  Simple.pixelAlpha (width img) s (data img) (idx (width img) x y * 4).
Proof.
  intros Hwf Hin. pose proof (idx_in_range _ _ _ _ Hin) as Hi.
  unfold alphaAt, byteAt. change (width (Simple.removeBackground img s)) with (width img).
  replace (idx (width img) x y * 4 + 3) with (4 * idx (width img) x y + 3) by lia.
  rewrite simple_output_alpha by (done || lia). simpl. f_equal. lia.
Qed.

(** The "edge" test of the simple pipeline in pixel coordinates. *)
Lemma simple_isEdge_coords img x y :
  wf_image img → inside (width img) (height img) x y →
  Simple.isEdge (width img) (Z.of_nat (length (data img))) (idx (width img) x y * 4) = true ↔
  simpleProtected (height img) x y.
Proof.
  intros (Hw & Hh & Hlen & _) [Hx Hy]. unfold Simple.isEdge, simpleProtected, idx.
  rewrite Hlen, Z2Nat.id by lia. rewrite andb_true_iff, !Z.ltb_lt. split.
  - intros [H1 H2]. assert (1 ≤ y) by nia. assert (y ≤ height img - 2) by nia.
    split; [lia|]. intros [-> ->]. lia.
  - intros [[H1 H2] Hne]. split; nia.
Qed.

Lemma simple_pixelAlpha_range w s d i :
  0 ≤ byteAt d (i + 3) ≤ 255 → 0 ≤ Simple.smoothing s →
  0 ≤ Simple.pixelAlpha w s d i ≤ byteAt d (i + 3).
Proof.
  intros Ha Hs. unfold Simple.pixelAlpha, clamp8.
  destruct (_ && _); [lia|]. destruct (Simple.aboveSoftThreshold _ _ _ _); lia.
Qed.

Lemma wf_byteAt img i : wf_image img → 0 ≤ byteAt (data img) i ≤ 255.
Proof.
  intros (_ & _ & _ & Hbytes). unfold byteAt.
  destruct (nthZ (data img) i) as [v|] eqn:Hv; simpl; [|lia].
  by apply (proj1 (Forall_nthZ _ _) Hbytes i v).
Qed.

(** X16. The simple pipeline keeps the size of the image and the R, G and B of
    every pixel, and its output is again a well-formed image. *)
Theorem simple_frame (img : ImageData) (s : Simple.ProcessingSettings) :
  width (Simple.removeBackground img s) = width img ∧
  height (Simple.removeBackground img s) = height img ∧
  length (data (Simple.removeBackground img s)) = length (data img) ∧
  (∀ x y, pixelAt (Simple.removeBackground img s) x y = pixelAt img x y) ∧
  (wf_image img → wf_image (Simple.removeBackground img s)).
Proof.
  split_and!; [done|done|apply simple_length| |].
  - intros x y. unfold pixelAt, byteAt.
    change (width (Simple.removeBackground img s)) with (width img).
    rewrite !simple_output_rgb; [done|..].
    + replace (idx (width img) x y * 4 + 2) with (2 + idx (width img) x y * 4) by lia.
      by rewrite Z.mod_add.
    + replace (idx (width img) x y * 4 + 1) with (1 + idx (width img) x y * 4) by lia.
      by rewrite Z.mod_add.
    + by rewrite Z.mod_mul.
  - intros Hwf. pose proof Hwf as (Hw & Hh & Hlen & Hbytes).
    split_and!; [done|done|by rewrite simple_length|].
    apply Forall_nthZ. intros j v Hv.
    destruct (decide (j `mod` 4 = 3)) as [Hj|Hj].
    + pose proof (nthZ_Some _ _ _ Hv) as Hr. rewrite simple_length, Hlen in Hr.
      pose proof (Z.div_mod j 4 ltac:(lia)) as Hdm.
      replace j with (4 * (j `div` 4) + 3) in Hv by lia.
      rewrite simple_output_alpha in Hv; [|done|].
      * injection Hv as <-. unfold Simple.pixelAlpha.
        pose proof (wf_byteAt img (4 * (j `div` 4) + 3) Hwf). pose proof (clamp8_range
          (0 `max` (byteAt (data img) (4 * (j `div` 4) + 3) - Simple.smoothing s * 20))).
        destruct (_ && _); [lia|]. by destruct (Simple.aboveSoftThreshold _ _ _ _).
      * split; [apply Z.div_pos; lia|apply Z.div_lt_upper_bound; lia].
    + rewrite simple_output_rgb in Hv by done.
      by apply (proj1 (Forall_nthZ _ _) Hbytes j v).
Qed.

Lemma simple_frame_witness : wf_image (Simple.removeBackground Simple.sample Simple.defaults).
Proof.
  apply (simple_frame Simple.sample Simple.defaults).
  apply wf_imageb_spec. vm_compute. reflexivity.
Defined.

(** X17. With a smoothing that is not negative, the simple pipeline never raises
    the alpha of a pixel. *)
Theorem simple_alpha_never_increases (img : ImageData) (s : Simple.ProcessingSettings)
    (x y : Z) :
  wf_image img → 0 ≤ Simple.smoothing s → inside (width img) (height img) x y →
  0 ≤ alphaAt (Simple.removeBackground img s) x y ≤ alphaAt img x y.
Proof.
  intros Hwf Hs Hin. rewrite simple_alphaAt by done. unfold alphaAt.
  apply simple_pixelAlpha_range; [by apply wf_byteAt|done].
Qed.

Lemma simple_alpha_never_increases_witness :
  0 ≤ alphaAt (Simple.removeBackground Simple.sample Simple.defaults) 0 1 ≤
  alphaAt Simple.sample 0 1.
Proof.
  apply (simple_alpha_never_increases Simple.sample Simple.defaults 0 1).
  - apply wf_imageb_spec. vm_compute. reflexivity.
  - simpl. lia.
  - unfold inside. simpl. lia.
Defined.

(** X18. Which pixels the simple pipeline clears and which it only dims. A pixel
    of the first row, the first pixel of the second row, or a pixel of the
    last row becomes fully transparent when its brightness is above the
    threshold. Every other pixel loses at most [20 * smoothing] of its alpha,
    and nothing when the smoothing is 0. *)
Theorem simple_rows (img : ImageData) (s : Simple.ProcessingSettings) (x y : Z) :
  wf_image img → inside (width img) (height img) x y →
  let px := pixelAt img x y in
  (¬ simpleProtected (height img) x y →
   Simple.aboveThreshold (r px) (g px) (b px) s = true →
   alphaAt (Simple.removeBackground img s) x y = 0) ∧
  (simpleProtected (height img) x y → 0 ≤ Simple.smoothing s →
   alphaAt img x y - 20 * Simple.smoothing s ≤
     alphaAt (Simple.removeBackground img s) x y) ∧
  (simpleProtected (height img) x y → Simple.smoothing s = 0 →
   alphaAt (Simple.removeBackground img s) x y = alphaAt img x y).
Proof.
  intros Hwf Hin px. subst px.
  pose proof (simple_isEdge_coords img x y Hwf Hin) as Hedge.
  pose proof (wf_byteAt img (idx (width img) x y * 4 + 3) Hwf) as Ha.
  rewrite simple_alphaAt by done. unfold Simple.pixelAlpha, alphaAt, pixelAt. simpl.
  rewrite <- (Z.add_0_r (idx (width img) x y * 4)) at 1 4 7.
  rewrite !Z.add_0_r.
  destruct (Simple.isEdge _ _ _) eqn:He.
  - rewrite andb_false_r. split_and!.
    + intros Hnp. exfalso. by apply Hnp, Hedge.
    + intros _ Hs. unfold clamp8. destruct (Simple.aboveSoftThreshold _ _ _ _); lia.
    + intros _ ->. unfold clamp8. destruct (Simple.aboveSoftThreshold _ _ _ _); lia.
  - rewrite andb_true_r. split_and!.
    + by intros _ ->.
    + intros Hp. apply Hedge in Hp. done.
    + intros Hp. apply Hedge in Hp. done.
Qed.

Lemma simple_rows_witness :
  alphaAt (Simple.removeBackground Simple.sample Simple.defaults) 0 1 = 0 ∧
  alphaAt Simple.sample 1 1 - 20 * Simple.smoothing Simple.defaults ≤
    alphaAt (Simple.removeBackground Simple.sample Simple.defaults) 1 1.
Proof.
  assert (wf_image Simple.sample) as Hwf by (apply wf_imageb_spec; vm_compute; reflexivity).
  split.
  - apply (simple_rows Simple.sample Simple.defaults 0 1 Hwf).
    + unfold inside. simpl. lia.
    + unfold simpleProtected. simpl. lia.
    + vm_compute. reflexivity.
  - apply (simple_rows Simple.sample Simple.defaults 1 1 Hwf).
    + unfold inside. simpl. lia.
    + unfold simpleProtected. simpl. lia.
    + simpl. lia.
Defined.
